(** * run_append.py: partitioning reaches over MPI ranks

    A shallow embedding of [get_reach_dict], [log_reaches], [log_results]
    and the coordinator's view of [run], with the properties of the
    partition plan and of the main log. *)

From stdpp Require Import prelude strings pretty gmap.
From Stdlib Require Import ZArith Lia Ascii.

Local Open Scope Z_scope.

(** ** Python values and exceptions *)

(** The exceptions the embedded code can raise. *)
Inductive exn : Set :=
  | IndexError
  | KeyError
  | ZeroDivisionError.

(** A computation either returns a value or raises. *)
Inductive result (A : Type) : Type :=
  | Ok (a : A)
  | Raise (e : exn).
Arguments Ok {A} a.
Arguments Raise {A} e.

(** Sequencing: an exception raised by the first computation ends the
    whole. Written [x ← m; k] below. *)
#[export] Instance result_bind : MBind result := λ A B k m,
  match m with
  | Ok a => k a
  | Raise e => Raise e
  end.

(** A list comprehension whose body can raise: left to right, the first
    exception ends it. *)
Fixpoint comprehension {A B : Type} (f : A → result B) (l : list A) : result (list B) :=
  match l with
  | [] => Ok []
  | x :: l' => y ← f x ; ys ← comprehension f l' ; Ok (y :: ys)
  end.

(** A [for] loop whose body can raise, threading the loop state. *)
Fixpoint for_each {S A : Type} (body : S → A → result S) (l : list A) (st : S) : result S :=
  match l with
  | [] => Ok st
  | x :: l' => st' ← body st x ; for_each body l' st'
  end.

(** [range(n)]: 0, 1, ..., n-1, empty when [n <= 0]. *)
Definition range (n : Z) : list Z := Z.of_nat <$> seq 0 (Z.to_nat n).

(** [a // b] and [a % b] on Python ints: floor division, the remainder has
    the sign of the divisor. *)
Definition floordiv (a b : Z) : result Z :=
  if b =? 0 then Raise ZeroDivisionError else Ok (a `div` b).

Definition pymod (a b : Z) : result Z :=
  if b =? 0 then Raise ZeroDivisionError else Ok (a `mod` b).

(** [len(l)] as a Python int. *)
Definition len {A : Type} (l : list A) : Z := Z.of_nat (length l).

(** [l[i]]: a negative index counts from the end. *)
Definition py_index {A : Type} (l : list A) (i : Z) : result A :=
  let j := if i <? 0 then i + len l else i in
  if (j <? 0) || (len l <=? j) then Raise IndexError
  else match l !! Z.to_nat j with
       | Some x => Ok x
       | None => Raise IndexError
       end.

(** A slice bound: negative bounds count from the end, and every bound is
    clamped to the list. *)
Definition slice_bound (n i : Z) : Z :=
  if i <? 0 then Z.max 0 (i + n) else Z.min i n.

(** [l[start:stop]]. *)
Definition py_slice {A : Type} (l : list A) (start stop : Z) : list A :=
  let lo := slice_bound (len l) start in
  let hi := slice_bound (len l) stop in
  take (Z.to_nat (hi - lo)) (drop (Z.to_nat lo) l).

(** [s.split(sep)] for a one-character separator: every occurrence of the
    separator ends a token, empty tokens are kept. *)
Fixpoint split (sep : ascii) (s : string) : list string :=
  match s with
  | EmptyString => [EmptyString]
  | String c s' =>
      if Ascii.eqb c sep then EmptyString :: split sep s'
      else match split sep s' with
           | tok :: toks => String c tok :: toks
           | [] => [String c EmptyString]
           end
  end.

(** ** Dictionaries

    A Python [dict] keeps its keys in insertion order, and [log_reaches]
    iterates over [reach_dict.items()], so the dictionary is an association
    list in insertion order with one entry per key. *)
Definition dict : Type := list (Z * list string).

(** [d[k]] *)
Fixpoint dict_get (d : dict) (k : Z) : result (list string) :=
  match d with
  | [] => Raise KeyError
  | (k', v) :: d' => if k' =? k then Ok v else dict_get d' k
  end.

(** [d[k] = v]: an existing key keeps its place, a new key goes last. *)
Fixpoint dict_set (d : dict) (k : Z) (v : list string) : dict :=
  match d with
  | [] => [(k, v)]
  | (k', v') :: d' => if k' =? k then (k, v) :: d' else (k', v') :: dict_set d' k v
  end.

(** [list(d.keys())] and [list(d.values())] *)
Definition dict_keys (d : dict) : list Z := d.*1.

Definition dict_values (d : dict) : list (list string) := d.*2.

(** ** get_reach_dict *)

(** [entry.name.split('_')[0] + '_' + entry.name.split('_')[1]] *)
Definition reach_key (name : string) : result string :=
  t0 ← py_index (split "_"%char name) 0 ;
  t1 ← py_index (split "_"%char name) 1 ;
  Ok (t0 +:+ "_" +:+ t1).

(** [list(set(reach_list))]: the order in which a Python set of strings is
    iterated depends on the hash seed of the interpreter, so the host is a
    parameter: [set_order] turns the list the set is built from into the
    list of its elements. It is a set enumeration when no element is
    repeated and the elements are those of the argument. *)
Definition set_enumeration (enum : list string → list string) : Prop :=
  ∀ l, NoDup (enum l) ∧ ∀ x, x ∈ enum l ↔ x ∈ l.

(** [i = 0 if i == (size - 1) else i + 1] *)
Definition next_rank (size i : Z) : Z :=
  if i =? size - 1 then 0 else i + 1.

(** The body of the first loop, on the state [(reach_dict, reach_count)]. *)
Definition slice_step (reach_list : list string) (reach_per_rank : Z)
    (st : dict * Z) (i : Z) : dict * Z :=
  let '(reach_dict, reach_count) := st in
  let start := reach_count in
  let stop := reach_count + reach_per_rank in
  (dict_set reach_dict i (py_slice reach_list start stop),
   reach_count + reach_per_rank).

(** The body of the second loop, on the state [(reach_dict, reach_count, i)]:
    [reach_dict[i]] is looked up first, then [reach_list[reach_count]], then
    the list held by the dictionary is extended in place. *)
Definition spread_step (reach_list : list string) (size : Z)
    (st : dict * Z * Z) (j : Z) : result (dict * Z * Z) :=
  let '(reach_dict, reach_count, i) := st in
  cur ← dict_get reach_dict i;
  reach ← py_index reach_list reach_count;
  Ok (dict_set reach_dict i (cur ++ [reach]), reach_count + 1, next_rank size i).

(** ** AppendSOS *)

(** What a rank hands to [COMM.gather]: the two lists [log_results] reads. *)
Record AppendSOS : Type := mkAppendSOS {
  valid_list : list string;
  invalid_list : list string
}.

(** Modelled from the spec: [AppendSOS.append] (app/AppendSOS.py is not
    among the sources). The worker session goes through its assigned keys
    in order, the processing unit classifies each key as valid or invalid,
    and both lists keep the processing order. *)
Definition append (classify : string → bool) (reach_list : list string) : AppendSOS :=
  {| valid_list := filter (λ k, classify k = true) reach_list;
     invalid_list := filter (λ k, classify k = false) reach_list |}.

(** ** The main log *)

(** [for element in value: reach_count += 1] *)
Definition count_elements (value : list string) : Z :=
  fold_left (λ reach_count _, reach_count + 1) value 0.

(** One turn of the loop of [log_reaches], on the state
    [(total_reaches, lines logged so far)]. *)
Definition log_reaches_step (st : Z * list string) (item : Z * list string)
    : Z * list string :=
  let '(total_reaches, lines) := st in
  let '(key, value) := item in
  let reach_count := count_elements value in
  (total_reaches + reach_count,
   lines ++ [pretty key +:+ "   Reach count:    " +:+ pretty reach_count]).

(** The lines [log_reaches] sends to the logger, in order. *)
Definition log_reaches (reach_dict : dict) : list string :=
  let '(total_reaches, lines) := fold_left log_reaches_step reach_dict (0, []) in
  lines ++ ["Total reach count: " +:+ pretty total_reaches].

(** The loop of [log_results]: [(total_valid_list, total_invalid_list)]. *)
Definition aggregate (results : list AppendSOS) : list string * list string :=
  fold_left
    (λ '(total_valid_list, total_invalid_list) append_sos,
       (total_valid_list ++ valid_list append_sos,
        total_invalid_list ++ invalid_list append_sos))
    results ([], []).

(** The lines [log_results] sends to the logger, in order. *)
Definition log_results (results : list AppendSOS) : list string :=
  let '(total_valid_list, total_invalid_list) := aggregate results in
  [ "total valid: " +:+ pretty (len total_valid_list);
    "total invalid: " +:+ pretty (len total_invalid_list);
    EmptyString;
    "valid reaches:";
    String.concat ", " total_valid_list;
    EmptyString;
    "invalid reaches:";
    String.concat ", " total_invalid_list;
    EmptyString ].

(** ** The program, given its host *)

(** What the coordinator's run does that can be observed from outside. *)
Inductive event : Type :=
  | MainLog (line : string)
  | Bcast (reach_dict : dict)
  | Barrier
  | Gather (results : list AppendSOS).

Section Host.
(** The iteration order of sets of strings, and the processing unit. *)
Variable set_order : list string → list string.
Variable classify : string → bool.

(** [size] is [COMM.Get_size()], [entries] the names [scandir(data_dir)]
    yields, in the order it yields them. *)
Definition get_reach_dict (size : Z) (entries : list string) : result dict :=
  reach_list ← comprehension reach_key entries;
  let reach_list := set_order reach_list in
  let total_reaches := len reach_list in
  reach_per_rank ← floordiv total_reaches size;
  let '(reach_dict, reach_count) :=
    fold_left (slice_step reach_list reach_per_rank) (range size) ([], 0) in
  rem ← pymod total_reaches size;
  if negb (rem =? 0) then
    let remaining := total_reaches - reach_count in
    '(reach_dict, _, _) ← for_each (spread_step reach_list size)
                            (range remaining) (reach_dict, reach_count, 0);
    Ok reach_dict
  else Ok reach_dict.

(** What each rank does between the broadcast and the barrier:
    [AppendSOS(Path(data_dir), rank_logger, reach_dict[rank])], then
    [append_sos.append()]. *)
Definition rank_session (reach_dict : dict) (rank : Z) : result AppendSOS :=
  reach_list ← dict_get reach_dict rank;
  Ok (append classify reach_list).

(** The ranks that run the program: rank 0, the process that builds the
    dictionary, and the ranks 1, ..., [size - 1] beside it; [range(size)]
    for a communicator, whose size is at least 1. *)
Definition ranks (size : Z) : list Z :=
  0 :: (Z.of_nat <$> seq 1 (Z.to_nat size - 1)).

(** [run] from line 24 on, once the two loggers are there, over the ranks
    of the communicator as one sequence: rank 0 builds and logs the
    dictionary, [COMM.bcast] hands it to every rank, every rank, rank 0
    first, runs its session, and after [COMM.barrier] rank 0 receives from
    [COMM.gather] the sessions in rank order and logs them. The events
    are those of rank 0 up to the first exception, if one is raised; that
    the other ranks then wait for ever in a collective call is not part
    of the value. *)
Definition run (size : Z) (entries : list string) : list event * result () :=
  match get_reach_dict size entries with
  | Raise e => ([], Raise e)
  | Ok reach_dict =>
      let plan_log := MainLog <$> log_reaches reach_dict in
      match comprehension (rank_session reach_dict) (ranks size) with
      | Raise e => (plan_log ++ [Bcast reach_dict], Raise e)
      | Ok results =>
          (plan_log ++ [Bcast reach_dict; Barrier; Gather results]
             ++ (MainLog <$> log_results results), Ok ())
      end
  end.
End Host.

(** ** Notions the statements use *)

(** [sep in s] *)
Fixpoint contains (sep : ascii) (s : string) : bool :=
  match s with
  | EmptyString => false
  | String c s' => Ascii.eqb c sep || contains sep s'
  end.

(** The block of [b] consecutive keys the first loop gives to rank [i]. *)
Definition block (keys : list string) (b i : nat) : list string :=
  take b (drop (i * b) keys).

(** The key the second loop adds to rank [i], if any: the [i]-th of the
    keys left over after [n] blocks of [b], for the first [r] ranks. *)
Definition extra (keys : list string) (n b r i : nat) : list string :=
  if (i <? r)%nat then take 1 (drop (n * b + i) keys) else [].

(** The dictionary with the keys [a], ..., [a + n - 1] in this order,
    key [i] holding [f i]. *)
Definition tabulate (f : nat → list string) (a n : nat) : dict :=
  (λ i, (Z.of_nat i, f i)) <$> seq a n.

(** The plan for [n] ranks in closed form. *)
Definition plan (keys : list string) (n : nat) : dict :=
  let b := (length keys / n)%nat in
  let r := (length keys `mod` n)%nat in
  tabulate (λ i, block keys b i ++ extra keys n b r i) 0 n.

(** The number of keys of every rank, in rank order. *)
Definition counts (d : dict) : list nat := length <$> dict_values d.

(** The smallest of a list of numbers (0 for the empty list). *)
Definition list_min (l : list nat) : nat :=
  match l with
  | [] => 0%nat
  | x :: l' => foldr Nat.min x l'
  end.


(** The rank the second loop has reached after [j] turns. *)
Definition rank_walk (size : Z) (j : nat) : Z := Nat.iter j (next_rank size) 0.

(** The rank that receives the key at position [p] of the iterated set,
    and the place of the key in the list of that rank, for [n] ranks and
    blocks of [b] keys. *)
Definition rank_of (n b p : nat) : nat :=
  if (p <? n * b)%nat then (p / b)%nat else (p - n * b)%nat.

Definition place_of (n b p : nat) : nat :=
  if (p <? n * b)%nat then (p `mod` b)%nat else b.

(** ** Loggers

    The [logging] module keeps one logger per name: [logging.getLogger]
    hands out the logger registered under the name and registers a new
    one, at level [NOTSET] and without handlers, when there is none. The
    registry is the state the two [create_*_logger] functions change. *)
Definition NOTSET : Z := 0.

Definition DEBUG : Z := 10.

Definition INFO : Z := 20.

(** A [logging.FileHandler]: the absolute path of the file it appends to,
    its level and the format string of its formatter, if it has one. *)
Record FileHandler : Type := mkFileHandler {
  baseFilename : string;
  handler_level : Z;
  formatter : option string
}.

(** A [logging.Logger]: its level and its handlers, oldest first. *)
Record Logger : Type := mkLogger {
  level : Z;
  handlers : list FileHandler
}.

(** [logging.getLogger(name)] *)
Definition getLogger (name : string) (loggers : gmap string Logger)
    : gmap string Logger :=
  match loggers !! name with
  | Some _ => loggers
  | None => <[name := mkLogger NOTSET []]> loggers
  end.

(** [logger.setLevel(lvl)], for the logger registered under [name]. *)
Definition setLevel (name : string) (lvl : Z) (loggers : gmap string Logger)
    : gmap string Logger :=
  alter (λ logger, mkLogger lvl (handlers logger)) name loggers.

(** [logger.addHandler(hdlr)]: a handler that was just built is not among
    the handlers of the logger, so it goes behind them. *)
Definition addHandler (name : string) (hdlr : FileHandler)
    (loggers : gmap string Logger) : gmap string Logger :=
  alter (λ logger, mkLogger (level logger) (handlers logger ++ [hdlr])) name loggers.

(** [f"{sos_config['logging_dir']}/{rank}.log"]; the configuration of the
    package is not among the sources, so the directory is an argument. *)
Definition rank_log_filename (logging_dir : string) (rank : Z) : string :=
  logging_dir +:+ "/" +:+ pretty rank +:+ ".log".

(** [f"{sos_config['logging_dir']}/main.log"] *)
Definition main_log_filename (logging_dir : string) : string :=
  logging_dir +:+ "/main.log".

(** How a [create_*_logger] call ends: it returns the logger registered
    under a name, or the [OSError] of a file that cannot be opened leaves
    it. *)
Inductive created : Type :=
  | Returned (name : string)
  | RaisedOSError.

Section Files.
(** What the host decides: [os.path.abspath], which depends on the working
    directory of the process, and whether a file can be opened for
    appending. *)
Variable abspath : string → string.
Variable can_open : string → bool.

(** [logging.FileHandler(filename)]: the handler keeps the absolute path
    of the file, opens the file at once, and starts at level [NOTSET]
    without a formatter; [None] when opening the file raises. *)
Definition FileHandler_new (filename : string) : option FileHandler :=
  let baseFilename := abspath filename in
  if can_open baseFilename then Some (mkFileHandler baseFilename NOTSET None)
  else None.

(** [create_rank_logger(rank)]: the registry it leaves and how it ends.
    The logger is registered and set to [DEBUG] before the file is
    opened, so it stays so when opening raises. *)
Definition create_rank_logger (logging_dir : string) (rank : Z)
    (loggers : gmap string Logger) : gmap string Logger * created :=
  let loggers := getLogger "rank_logger" loggers in
  let loggers := setLevel "rank_logger" DEBUG loggers in
  let filename := rank_log_filename logging_dir rank in
  match FileHandler_new filename with
  | None => (loggers, RaisedOSError)
  | Some file_handler =>
      let file_handler :=
        mkFileHandler (file_handler.(baseFilename)) INFO (file_handler.(formatter)) in
      let file_format := "%(message)s" in
      let file_handler :=
        mkFileHandler (file_handler.(baseFilename)) (file_handler.(handler_level))
          (Some file_format) in
      (addHandler "rank_logger" file_handler loggers, Returned "rank_logger")
  end.

(** [create_main_logger()]: the registry it leaves and how it ends. *)
Definition create_main_logger (logging_dir : string)
    (loggers : gmap string Logger) : gmap string Logger * created :=
  let loggers := getLogger "main_logger" loggers in
  let loggers := setLevel "main_logger" DEBUG loggers in
  let filename := main_log_filename logging_dir in
  match FileHandler_new filename with
  | None => (loggers, RaisedOSError)
  | Some file_handler =>
      let file_handler :=
        mkFileHandler (file_handler.(baseFilename)) INFO (file_handler.(formatter)) in
      let file_format := "%(message)s" in
      let file_handler :=
        mkFileHandler (file_handler.(baseFilename)) (file_handler.(handler_level))
          (Some file_format) in
      (addHandler "main_logger" file_handler loggers, Returned "main_logger")
  end.
End Files.

(** The handlers registered under a name, none for an unknown name. *)
Definition handlers_of (name : string) (loggers : gmap string Logger)
    : list FileHandler :=
  match loggers !! name with
  | Some logger => handlers logger
  | None => []
  end.

(** * Properties *)

(** ** Exceptions and loops *)

Lemma bind_Ok {A B : Type} (m : result A) (k : A → result B) (b : B) :
  (x ← m; k x) = Ok b ↔ ∃ a, m = Ok a ∧ k a = Ok b.
Proof.
  destruct m as [a|e]; simpl.
  - split; [eauto | by intros (? & [= <-] & ?)].
  - split; [done | by intros (? & ? & ?)].
Qed.

Lemma comprehension_Ok {A B : Type} (f : A → result B) (l : list A) (ys : list B) :
  comprehension f l = Ok ys ↔ Forall2 (λ x y, f x = Ok y) l ys.
Proof.
  revert ys. induction l as [|x l IH]; intros ys; simpl.
  - split; [by intros [= <-]; constructor | by inversion 1].
  - rewrite bind_Ok. split.
    + intros (y & Hy & Hrest). apply bind_Ok in Hrest as (ys' & Hys & [= <-]).
      constructor; [done | by apply IH].
    + inversion 1 as [|? y ? ys' Hy Hys]; subst. exists y. split; [done|].
      apply bind_Ok. exists ys'. split; [by apply IH | done].
Qed.

Lemma comprehension_total {A B : Type} (f : A → result B) (l : list A) :
  Forall (λ x, ∃ y, f x = Ok y) l → ∃ ys, comprehension f l = Ok ys.
Proof.
  induction 1 as [|x l [y Hy] _ [ys IH]]; simpl; [by eexists|].
  rewrite Hy, IH. by eexists.
Qed.

Lemma comprehension_elem_of {A B : Type} (f : A → result B) l ys y :
  comprehension f l = Ok ys → y ∈ ys ↔ ∃ x, x ∈ l ∧ f x = Ok y.
Proof.
  rewrite comprehension_Ok. induction 1 as [|x y' l ys Hxy _ IH].
  - split; [by intros ?%elem_of_nil | by intros (? & ?%elem_of_nil & _)].
  - rewrite elem_of_cons, IH. split.
    + intros [->|(x' & ? & ?)]; [exists x | exists x']; by rewrite elem_of_cons; auto.
    + intros (x' & [->|?]%elem_of_cons & Hx'); [left; congruence | right; eauto].
Qed.

Lemma comprehension_Raise {A B : Type} (f : A → result B) (l : list A) x e :
  x ∈ l → f x = Raise e → (∀ x' e', f x' = Raise e' → e' = e) →
  comprehension f l = Raise e.
Proof.
  intros Hx Hfx Honly. induction Hx as [x l|x y l _ IH]; simpl.
  - by rewrite Hfx.
  - destruct (f y) as [b|e'] eqn:Hy; simpl.
    + by rewrite IH.
    + by rewrite (Honly _ _ Hy).
Qed.

(** ** Splitting names *)

Lemma split_not_nil sep s : split sep s ≠ [].
Proof.
  destruct s as [|c s]; simpl; [done|].
  destruct (Ascii.eqb c sep); [done|]. by destruct (split sep s).
Qed.

Lemma split_no_sep sep s : contains sep s = false → split sep s = [s].
Proof.
  induction s as [|c s IH]; simpl; [done|].
  intros [Hc Hs]%orb_false_iff. by rewrite Hc, IH.
Qed.

Lemma split_sep sep t s :
  contains sep t = false → split sep (t +:+ String sep s) = t :: split sep s.
Proof.
  induction t as [|c t IH]; simpl.
  - by rewrite Ascii.eqb_refl.
  - intros [Hc Ht]%orb_false_iff. by rewrite Hc, IH.
Qed.

Lemma split_length sep s :
  (2 ≤ length (split sep s))%nat ↔ contains sep s = true.
Proof.
  induction s as [|c s IH]; simpl; [split; [lia | done]|].
  destruct (Ascii.eqb c sep); simpl.
  - pose proof (split_not_nil sep s). destruct (split sep s); [done|]. simpl.
    split; [done | lia].
  - rewrite <-IH. pose proof (split_not_nil sep s). by destruct (split sep s).
Qed.

Lemma py_index_Some {A : Type} (l : list A) (i : Z) x :
  0 ≤ i → l !! Z.to_nat i = Some x → py_index l i = Ok x.
Proof.
  intros Hpos Hi. pose proof (lookup_lt_Some _ _ _ Hi) as Hlt.
  unfold py_index, len.
  assert ((i <? 0) = false) as E by (apply Z.ltb_ge; lia). rewrite !E.
  assert ((Z.of_nat (length l) <=? i) = false) as -> by (apply Z.leb_gt; lia).
  simpl. by rewrite Hi.
Qed.

Lemma py_index_out {A : Type} (l : list A) (i : Z) :
  len l ≤ i → py_index l i = Raise IndexError.
Proof.
  unfold py_index, len. intros Hge.
  assert ((i <? 0) = false) as E by (apply Z.ltb_ge; lia). rewrite !E.
  assert ((Z.of_nat (length l) <=? i) = true) as -> by (apply Z.leb_le; lia).
  done.
Qed.

Lemma reach_key_split name t0 t1 toks :
  split "_" name = t0 :: t1 :: toks → reach_key name = Ok (t0 +:+ "_" +:+ t1).
Proof.
  intros Hs. unfold reach_key. rewrite Hs.
  by rewrite (py_index_Some _ 0 t0), (py_index_Some _ 1 t1).
Qed.

Example reach_key_ex : reach_key "12_34_x.csv" = Ok "12_34".
Proof. reflexivity. Qed.

Lemma reach_key_no_sep name :
  contains "_" name = false → reach_key name = Raise IndexError.
Proof.
  intros Hs. unfold reach_key. rewrite (split_no_sep _ _ Hs).
  by rewrite (py_index_Some _ 0 name), (py_index_out _ 1).
Qed.

Lemma reach_key_sep name :
  contains "_" name = true → ∃ k, reach_key name = Ok k.
Proof.
  intros Hs%split_length. destruct (split "_" name) as [|t0 [|t1 toks]] eqn:E;
    simpl in Hs; [lia..|].
  eauto using reach_key_split.
Qed.

Lemma reach_key_exn name e : reach_key name = Raise e → e = IndexError.
Proof.
  destruct (contains "_" name) eqn:Hs.
  - destruct (reach_key_sep _ Hs) as [k ->]. done.
  - rewrite (reach_key_no_sep _ Hs). by intros [= <-].
Qed.

(** ** Slices and dictionaries *)

Lemma py_slice_block (keys : list string) (s b : nat) :
  (s + b ≤ length keys)%nat →
  py_slice keys (Z.of_nat s) (Z.of_nat s + Z.of_nat b) = take b (drop s keys).
Proof.
  intros Hle. unfold py_slice, slice_bound, len.
  assert ((Z.of_nat s <? 0) = false) as -> by (apply Z.ltb_ge; lia).
  assert ((Z.of_nat s + Z.of_nat b <? 0) = false) as -> by (apply Z.ltb_ge; lia).
  rewrite !Z.min_l by lia. f_equal; [lia | by rewrite Nat2Z.id].
Qed.

Lemma take_one_lookup {A : Type} (l : list A) (i : nat) x :
  l !! i = Some x → take 1 (drop i l) = [x].
Proof.
  revert i. induction l as [|y l IH]; intros [|i]; simpl; try done.
  - intros [= ->]. by rewrite take_0.
  - apply IH.
Qed.

Lemma dict_set_fresh d k v : k ∉ dict_keys d → dict_set d k v = d ++ [(k, v)].
Proof.
  unfold dict_keys. induction d as [|[k' v'] d IH]; simpl; [done|].
  intros [Hne Hd]%not_elem_of_cons.
  destruct (Z.eqb_spec k' k); [congruence|]. by rewrite IH.
Qed.

Lemma dict_keys_tabulate f a n : dict_keys (tabulate f a n) = Z.of_nat <$> seq a n.
Proof. unfold dict_keys, tabulate. rewrite <-list_fmap_compose. done. Qed.

Lemma dict_values_tabulate f a n : dict_values (tabulate f a n) = f <$> seq a n.
Proof. unfold dict_values, tabulate. rewrite <-list_fmap_compose. done. Qed.

Lemma tabulate_cons f a n :
  tabulate f a (S n) = (Z.of_nat a, f a) :: tabulate f (S a) n.
Proof. done. Qed.

Lemma tabulate_S f a n :
  tabulate f a (S n) = tabulate f a n ++ [(Z.of_nat (a + n), f (a + n)%nat)].
Proof. unfold tabulate. by rewrite seq_S, fmap_app. Qed.

Lemma tabulate_ext f g a n :
  (∀ i, (a ≤ i < a + n)%nat → f i = g i) → tabulate f a n = tabulate g a n.
Proof.
  intros Hfg. unfold tabulate. apply list_fmap_ext.
  intros j i [-> Hj]%lookup_seq. rewrite Hfg; [done | lia].
Qed.

Lemma dict_get_tabulate f a n (k : nat) :
  (a ≤ k < a + n)%nat → dict_get (tabulate f a n) (Z.of_nat k) = Ok (f k).
Proof.
  revert a. induction n as [|n IH]; intros a Hk; [lia|]. simpl.
  destruct (Z.eqb_spec (Z.of_nat a) (Z.of_nat k)) as [Heq|Hne].
  - by apply Nat2Z.inj in Heq as ->.
  - apply (IH (S a)). lia.
Qed.

Lemma dict_get_tabulate_out f a n (k : Z) :
  ¬ (Z.of_nat a ≤ k < Z.of_nat (a + n)) → dict_get (tabulate f a n) k = Raise KeyError.
Proof.
  revert a. induction n as [|n IH]; intros a Hk; [done|]. simpl.
  destruct (Z.eqb_spec (Z.of_nat a) k) as [Heq|Hne]; [lia|].
  apply (IH (S a)). lia.
Qed.

Lemma dict_set_tabulate f a n (k : nat) v :
  (a ≤ k < a + n)%nat →
  dict_set (tabulate f a n) (Z.of_nat k) v
  = tabulate (λ i, if decide (i = k) then v else f i) a n.
Proof.
  revert a. induction n as [|n IH]; intros a Hk; [lia|].
  rewrite !tabulate_cons. simpl.
  destruct (Z.eqb_spec (Z.of_nat a) (Z.of_nat k)) as [Heq|Hne].
  - apply Nat2Z.inj in Heq as ->. rewrite decide_True by done. f_equal.
    apply tabulate_ext. intros i Hi. by rewrite decide_False by lia.
  - rewrite decide_False by congruence. f_equal. apply (IH (S a)).
    assert (a ≠ k) by congruence. lia.
Qed.

(** ** The two loops of get_reach_dict *)

Lemma range_of_nat (n : nat) : range (Z.of_nat n) = Z.of_nat <$> seq 0 n.
Proof. unfold range. by rewrite Nat2Z.id. Qed.

Lemma slice_loop (keys : list string) (b n : nat) :
  (n * b ≤ length keys)%nat →
  fold_left (slice_step keys (Z.of_nat b)) (range (Z.of_nat n)) ([], 0)
  = (tabulate (block keys b) 0 n, Z.of_nat (n * b)).
Proof.
  rewrite range_of_nat. induction n as [|n IH]; intros Hle; [done|].
  rewrite seq_S, fmap_app, fold_left_app, IH by lia. simpl.
  rewrite tabulate_S. f_equal; [|lia].
  rewrite dict_set_fresh.
  - do 3 f_equal. rewrite py_slice_block by lia. done.
  - rewrite dict_keys_tabulate. intros (i & Hi & [_ ?]%elem_of_seq)%list_elem_of_fmap.
    lia.
Qed.

Lemma next_rank_succ (n j : nat) : (j + 1 < n)%nat →
  next_rank (Z.of_nat n) (Z.of_nat j) = Z.of_nat (j + 1).
Proof.
  intros Hlt. unfold next_rank.
  destruct (Z.eqb_spec (Z.of_nat j) (Z.of_nat n - 1)); lia.
Qed.

Lemma spread_loop (keys : list string) (n b : nat) (m j s : nat) :
  (j + m < n)%nat → (n * b + j + m ≤ length keys)%nat →
  for_each (spread_step keys (Z.of_nat n)) (Z.of_nat <$> seq s m)
    (tabulate (λ i, block keys b i ++ extra keys n b j i) 0 n,
     Z.of_nat (n * b + j), Z.of_nat j)
  = Ok (tabulate (λ i, block keys b i ++ extra keys n b (j + m) i) 0 n,
        Z.of_nat (n * b + j + m), Z.of_nat (j + m)).
Proof.
  revert j s. induction m as [|m IH]; intros j s Hj Hlen; simpl.
  { by rewrite !Nat.add_0_r. }
  destruct (lookup_lt_is_Some_2 keys (n * b + j)) as [x Hx]; [lia|].
  rewrite dict_get_tabulate by lia. simpl.
  rewrite (py_index_Some _ _ x) by (rewrite ?Nat2Z.id; done || lia). simpl.
  rewrite dict_set_tabulate by lia. rewrite next_rank_succ by lia.
  replace (Z.of_nat (n * b + j) + 1) with (Z.of_nat (n * b + (j + 1))) by lia.
  rewrite (tabulate_ext _ (λ i, block keys b i ++ extra keys n b (j + 1) i)).
  - replace (n * b + j + S m)%nat with (n * b + (j + 1) + m)%nat by lia.
    replace (j + S m)%nat with (j + 1 + m)%nat by lia.
    apply IH; lia.
  - intros i _. unfold extra. destruct (decide (i = j)) as [->|Hne].
    + rewrite (proj2 (Nat.ltb_ge j j)) by lia.
      rewrite (proj2 (Nat.ltb_lt j (j + 1))) by lia.
      by rewrite app_nil_r, (take_one_lookup _ _ x).
    + destruct (Nat.ltb_spec i j), (Nat.ltb_spec i (j + 1)); done || lia.
Qed.

Lemma get_reach_dict_plan set_order (size : Z) entries ks :
  1 ≤ size → comprehension reach_key entries = Ok ks →
  get_reach_dict set_order size entries = Ok (plan (set_order ks) (Z.to_nat size)).
Proof.
  intros Hsize Hks. unfold get_reach_dict. rewrite Hks. simpl.
  set (keys := set_order ks). remember (Z.to_nat size) as n eqn:Hn'.
  assert (size = Z.of_nat n) as -> by lia. assert (n ≠ 0)%nat as Hn by lia.
  clear Hn' Hsize.
  unfold floordiv, pymod, len.
  rewrite (proj2 (Z.eqb_neq (Z.of_nat n) 0)) by lia. simpl.
  rewrite <-Nat2Z.inj_div, <-Nat2Z.inj_mod.
  pose proof (Nat.div_mod_eq (length keys) n) as Hdm.
  pose proof (Nat.mod_upper_bound (length keys) n Hn) as Hr.
  set (b := (length keys / n)%nat) in *. set (r := (length keys `mod` n)%nat) in *.
  rewrite slice_loop by lia.
  assert (tabulate (block keys b) 0 n
          = tabulate (λ i, block keys b i ++ extra keys n b 0 i) 0 n) as ->.
  { apply tabulate_ext. intros i _. unfold extra. simpl. by rewrite app_nil_r. }
  destruct (Z.eqb_spec (Z.of_nat r) 0) as [Hr0|Hr0]; simpl.
  - unfold plan. fold b r. by replace r with 0%nat by lia.
  - replace (Z.of_nat (length keys) - Z.of_nat (n * b)) with (Z.of_nat r) by lia.
    rewrite range_of_nat.
    replace (Z.of_nat (n * b)) with (Z.of_nat (n * b + 0)) by (f_equal; lia).
    change 0 with (Z.of_nat 0). rewrite spread_loop by lia. done.
Qed.

(** ** The plan in closed form *)

Lemma elem_of_concat {A : Type} (ls : list (list A)) (x : A) :
  x ∈ concat ls ↔ ∃ l, l ∈ ls ∧ x ∈ l.
Proof.
  induction ls as [|l ls IH]; simpl.
  - split; [by intros ?%elem_of_nil | by intros (? & ?%elem_of_nil & _)].
  - rewrite elem_of_app, IH. split.
    + intros [?|(l' & ? & ?)]; [exists l | exists l']; by rewrite elem_of_cons; auto.
    + intros (l' & [->|?]%elem_of_cons & ?); eauto.
Qed.

Lemma NoDup_concat_disjoint {A : Type} (ls : list (list A)) (i j : nat) a b x :
  NoDup (concat ls) → i ≠ j → ls !! i = Some a → ls !! j = Some b →
  x ∈ a → x ∉ b.
Proof.
  revert i j. induction ls as [|l ls IH]; intros i j Hnd Hij Hi Hj Ha Hb; [done|].
  simpl in Hnd. apply NoDup_app in Hnd as (_ & Hsep & Hnd).
  destruct i as [|i], j as [|j]; simpl in *; simplify_eq.
  - apply (Hsep x Ha), elem_of_concat. eauto using list_elem_of_lookup_2.
  - apply (Hsep x Hb), elem_of_concat. eauto using list_elem_of_lookup_2.
  - apply (IH i j); auto.
Qed.

Lemma concat_fmap_app {A B : Type} (f g : A → list B) (l : list A) :
  concat ((λ i, f i ++ g i) <$> l) ≡ₚ concat (f <$> l) ++ concat (g <$> l).
Proof.
  induction l as [|x l IH]; simpl; [done|].
  rewrite IH, <-!(assoc_L (++)). f_equiv. apply Permutation_app_swap_app.
Qed.

Lemma concat_blocks (keys : list string) (b n : nat) :
  concat (block keys b <$> seq 0 n) = take (n * b) keys.
Proof.
  induction n as [|n IH]; [done|].
  rewrite seq_S, fmap_app, concat_app, IH. simpl. rewrite app_nil_r.
  unfold block. rewrite take_take_drop. f_equal. lia.
Qed.

Lemma concat_extras (keys : list string) (n b r m : nat) :
  concat (extra keys n b r <$> seq 0 m) = take (m `min` r) (drop (n * b) keys).
Proof.
  induction m as [|m IH]; [done|].
  rewrite seq_S, fmap_app, concat_app, IH.
  replace (concat (extra keys n b r <$> [(0 + m)%nat])) with (extra keys n b r m)
    by (simpl; by rewrite app_nil_r).
  unfold extra. destruct (Nat.ltb_spec m r).
  - rewrite Nat.min_l, <-(drop_drop keys m (n * b)), take_take_drop by lia.
    f_equal. lia.
  - rewrite app_nil_r. f_equal. lia.
Qed.

Lemma plan_keys keys n : dict_keys (plan keys n) = range (Z.of_nat n).
Proof. unfold plan. by rewrite dict_keys_tabulate, range_of_nat. Qed.

Lemma plan_concat keys n : n ≠ 0%nat → concat (dict_values (plan keys n)) ≡ₚ keys.
Proof.
  intros Hn. unfold plan. rewrite dict_values_tabulate, concat_fmap_app.
  rewrite concat_blocks, concat_extras, take_take_drop.
  pose proof (Nat.div_mod_eq (length keys) n).
  pose proof (Nat.mod_upper_bound (length keys) n Hn).
  rewrite take_ge; [done | lia].
Qed.

Lemma plan_get keys n (k : Z) v :
  dict_get (plan keys n) k = Ok v ↔
  ∃ i : nat, k = Z.of_nat i ∧ (i < n)%nat ∧
    v = block keys (length keys / n) i
        ++ extra keys n (length keys / n) (length keys `mod` n) i.
Proof.
  unfold plan. split.
  - intros Hget. destruct (decide (0 ≤ k < Z.of_nat n)) as [Hk|Hk].
    + exists (Z.to_nat k). split; [lia|]. split; [lia|].
      rewrite <-(Z2Nat.id k), dict_get_tabulate in Hget by lia. congruence.
    + rewrite dict_get_tabulate_out in Hget; [done | simpl; lia].
  - intros (i & -> & Hi & ->). apply dict_get_tabulate. lia.
Qed.

Lemma plan_count keys n i :
  n ≠ 0%nat → (i < n)%nat →
  length (block keys (length keys / n) i
          ++ extra keys n (length keys / n) (length keys `mod` n) i)
  = (length keys / n + if (i <? length keys `mod` n)%nat then 1 else 0)%nat.
Proof.
  intros Hn Hi. pose proof (Nat.div_mod_eq (length keys) n) as Hdm.
  pose proof (Nat.mod_upper_bound (length keys) n Hn) as Hr.
  set (b := (length keys / n)%nat) in *. set (r := (length keys `mod` n)%nat) in *.
  assert (i * b + b ≤ n * b)%nat by nia.
  rewrite length_app. unfold block, extra.
  rewrite length_take, length_drop. destruct (Nat.ltb_spec i r).
  - rewrite length_take, length_drop. lia.
  - simpl. lia.
Qed.

Lemma plan_counts keys n :
  n ≠ 0%nat →
  counts (plan keys n)
  = (λ i, (length keys / n + if (i <? length keys `mod` n)%nat then 1 else 0)%nat)
      <$> seq 0 n.
Proof.
  intros Hn. unfold counts, plan. rewrite dict_values_tabulate, <-list_fmap_compose.
  apply list_fmap_ext. intros j i [-> Hj]%lookup_seq. by apply plan_count.
Qed.

Lemma get_reach_dict_inv set_order size entries d :
  1 ≤ size → get_reach_dict set_order size entries = Ok d →
  ∃ ks, comprehension reach_key entries = Ok ks
        ∧ d = plan (set_order ks) (Z.to_nat size).
Proof.
  intros Hsize Hd. destruct (comprehension reach_key entries) as [ks|e] eqn:Hks.
  - exists ks. split; [done|].
    rewrite (get_reach_dict_plan _ _ _ ks) in Hd by done. congruence.
  - unfold get_reach_dict in Hd. by rewrite Hks in Hd.
Qed.

Lemma entries_well_formed entries :
  Forall (λ name, contains "_" name = true) entries →
  ∃ ks, comprehension reach_key entries = Ok ks.
Proof.
  intros Hwf. apply comprehension_total. eapply Forall_impl; [done|].
  intros name. apply reach_key_sep.
Qed.

Lemma get_reach_dict_exact set_order (size : Z) (entries : list string) d :
  set_enumeration set_order → 1 ≤ size →
  get_reach_dict set_order size entries = Ok d →
  NoDup (concat (dict_values d)) ∧
  ∀ k, k ∈ concat (dict_values d) ↔ ∃ name, name ∈ entries ∧ reach_key name = Ok k.
Proof.
  intros Henum Hsize (ks & Hks & ->)%get_reach_dict_inv; [|done].
  destruct (Henum ks) as [Hnd Hin].
  assert (concat (dict_values (plan (set_order ks) (Z.to_nat size))) ≡ₚ set_order ks)
    as Hperm by (apply plan_concat; lia).
  split; [by rewrite Hperm|].
  intros k. rewrite Hperm, Hin. by apply comprehension_elem_of.
Qed.

Lemma list_min_ge (l : list nat) (m : nat) :
  l ≠ [] → Forall (λ k, m ≤ k)%nat l → (m ≤ list_min l)%nat.
Proof.
  destruct l as [|x l]; [done|]. intros _ Hall. simpl.
  apply Forall_cons in Hall as [Hx Hl].
  induction Hl as [|y l Hy _ IH]; simpl; lia.
Qed.

Lemma remove_dups_enumeration : set_enumeration remove_dups.
Proof.
  intros l. split; [apply NoDup_remove_dups | intros x; apply elem_of_remove_dups].
Qed.

Lemma rank_walk_mod (size : Z) (j : nat) :
  1 ≤ size → rank_walk size j = Z.of_nat j `mod` size.
Proof.
  intros Hsize. unfold rank_walk. induction j as [|j IH]; [done|].
  rewrite Nat.iter_succ, IH, Nat2Z.inj_succ. unfold next_rank, Z.succ.
  generalize (Z.of_nat j) (Nat2Z.is_nonneg j). intros x Hx.
  pose proof (Z.div_mod x size). pose proof (Z.mod_pos_bound x size).
  destruct (Z.eqb_spec (x `mod` size) (size - 1)) as [E|E].
  - apply (Z.mod_unique _ _ (x `div` size + 1)); lia.
  - apply (Z.mod_unique _ _ (x `div` size)); lia.
Qed.

Lemma count_extended (b r m : nat) :
  length (filter (λ c, c = b + 1)%nat
            ((λ i, b + if (i <? r)%nat then 1 else 0)%nat <$> seq 0 m))
  = (m `min` r)%nat.
Proof.
  induction m as [|m IH]; [done|].
  rewrite seq_S, fmap_app, filter_app, length_app, IH.
  replace ((λ i, b + if (i <? r)%nat then 1 else 0)%nat <$> [(0 + m)%nat])
    with [(b + if (m <? r)%nat then 1 else 0)%nat] by done.
  destruct (Nat.ltb_spec m r).
  - rewrite filter_cons_True, filter_nil by done. cbn [length]. lia.
  - rewrite filter_cons_False, filter_nil by lia. cbn [length]. lia.
Qed.

(** ** The partition plan *)

(** C1. For every worker count [N] of at least 1 and every list of entry
    names, whatever the iteration order of the set: when [get_reach_dict]
    returns a plan (which it does as soon as every name has a `_`), the
    plan has one list for each of the ranks 0, ..., N-1 and for nothing
    else; the key lists of two different ranks share no key; the lists
    together hold every derived key exactly once and nothing else; and
    the largest and the smallest of the N lists differ in length by at
    most 1, as do the lists of any two ranks. *)
Theorem get_reach_dict_partition set_order (size : Z) (entries : list string) :
  set_enumeration set_order → 1 ≤ size →
  (Forall (λ name, contains "_" name = true) entries →
   ∃ d, get_reach_dict set_order size entries = Ok d) ∧
  ∀ d, get_reach_dict set_order size entries = Ok d →
    dict_keys d = range size ∧
    (∀ rank, 0 ≤ rank < size → ∃ reach_list, dict_get d rank = Ok reach_list) ∧
    (∀ i j vi vj, i ≠ j → dict_get d i = Ok vi → dict_get d j = Ok vj →
       ∀ k, k ∈ vi → k ∉ vj) ∧
    NoDup (concat (dict_values d)) ∧
    (∀ k, k ∈ concat (dict_values d) ↔
          ∃ name, name ∈ entries ∧ reach_key name = Ok k) ∧
    length (counts d) = Z.to_nat size ∧
    Z.of_nat (list_max (counts d)) - Z.of_nat (list_min (counts d)) ≤ 1 ∧
    (∀ i j vi vj, dict_get d i = Ok vi → dict_get d j = Ok vj →
       len vi - len vj ≤ 1).
Proof.
  intros Henum Hsize. split.
  { intros [ks Hks]%entries_well_formed. eauto using get_reach_dict_plan. }
  intros d Hd.
  destruct (get_reach_dict_exact set_order size entries d Henum Hsize Hd) as [Hnd Hin].
  apply get_reach_dict_inv in Hd as (ks & Hks & ->); [|done].
  set (keys := set_order ks) in *. set (n := Z.to_nat size) in *.
  assert (n ≠ 0)%nat as Hn by lia.
  split; [rewrite plan_keys; f_equal; lia|].
  split.
  { intros rank Hrank. eexists. apply plan_get. exists (Z.to_nat rank).
    split; [lia|]. split; [lia | done]. }
  split; [|split; [done|split; [done|]]].
  - intros i j vi vj Hij (i' & -> & Hi' & ->)%plan_get (j' & -> & Hj' & ->)%plan_get k.
    apply (NoDup_concat_disjoint (dict_values (plan keys n)) i' j'); [done|lia|..].
    all: unfold plan; rewrite dict_values_tabulate, list_lookup_fmap, lookup_seq_lt by done.
    all: done.
  - split; [|split].
    + rewrite plan_counts by done. by rewrite length_fmap, length_seq.
    + rewrite plan_counts by done.
      set (b := (length keys / n)%nat). set (r := (length keys `mod` n)%nat).
      set (cs := _ <$> seq 0 n).
      assert (list_max cs ≤ b + 1)%nat.
      { apply list_max_le, Forall_fmap, Forall_forall. intros i _. simpl.
        destruct (i <? r)%nat; lia. }
      assert (b ≤ list_min cs)%nat.
      { apply list_min_ge.
        - intros Hnil%fmap_nil_inv. by destruct n.
        - apply Forall_fmap, Forall_forall. intros i _. simpl. lia. }
      lia.
    + intros i j vi vj (i' & -> & Hi' & ->)%plan_get (j' & -> & Hj' & ->)%plan_get.
      unfold len. rewrite !plan_count by done.
      destruct (i' <? _)%nat, (j' <? _)%nat; lia.
Qed.

(** The theorem applies: the three names of scenario A, two ranks, the set
    iterated in the order of first occurrence. *)
Lemma get_reach_dict_partition_witness :
  (Forall (λ name, contains "_" name = true) ["1_2_a"; "1_2_b"; "3_4_a"] →
   ∃ d, get_reach_dict remove_dups 2 ["1_2_a"; "1_2_b"; "3_4_a"] = Ok d) ∧
  ∀ d, get_reach_dict remove_dups 2 ["1_2_a"; "1_2_b"; "3_4_a"] = Ok d →
    dict_keys d = range 2 ∧
    (∀ rank, 0 ≤ rank < 2 → ∃ reach_list, dict_get d rank = Ok reach_list) ∧
    (∀ i j vi vj, i ≠ j → dict_get d i = Ok vi → dict_get d j = Ok vj →
       ∀ k, k ∈ vi → k ∉ vj) ∧
    NoDup (concat (dict_values d)) ∧
    (∀ k, k ∈ concat (dict_values d) ↔
          ∃ name, name ∈ ["1_2_a"; "1_2_b"; "3_4_a"] ∧ reach_key name = Ok k) ∧
    length (counts d) = Z.to_nat 2 ∧
    Z.of_nat (list_max (counts d)) - Z.of_nat (list_min (counts d)) ≤ 1 ∧
    (∀ i j vi vj, dict_get d i = Ok vi → dict_get d j = Ok vj →
       len vi - len vj ≤ 1).
Proof.
  apply (get_reach_dict_partition remove_dups 2 ["1_2_a"; "1_2_b"; "3_4_a"]).
  - exact remove_dups_enumeration.
  - lia.
Defined.

(** C2. With [T] derived keys and [N >= 1] ranks, exactly [T mod N] ranks
    hold [T div N + 1] keys and every other rank holds [T div N]; the walk of
    the second loop starts at rank 0, moves to the next rank at every turn
    and is back at 0 after rank [N - 1]; the [j]-th left-over key goes to the
    rank the walk has reached after [j] turns, behind that rank's block, and
    the ranks the walk does not reach hold their block only. *)
Theorem get_reach_dict_round_robin set_order (size : Z) (entries ks : list string) :
  1 ≤ size → comprehension reach_key entries = Ok ks →
  let reach_list := set_order ks in
  let n := Z.to_nat size in
  let b := (length reach_list / n)%nat in
  let r := (length reach_list `mod` n)%nat in
  ∃ d, get_reach_dict set_order size entries = Ok d ∧
    length (filter (λ c, c = b + 1)%nat (counts d)) = r ∧
    Forall (λ c, c = b + 1 ∨ c = b)%nat (counts d) ∧
    rank_walk size 0 = 0 ∧
    (∀ j, rank_walk size (S j) = next_rank size (rank_walk size j)) ∧
    (∀ j, rank_walk size j = Z.of_nat j `mod` size) ∧
    (∀ j, (j < r)%nat →
       ∃ reach, reach_list !! (n * b + j)%nat = Some reach ∧
         dict_get d (rank_walk size j) = Ok (block reach_list b j ++ [reach])) ∧
    (∀ i, (r ≤ i < n)%nat → dict_get d (Z.of_nat i) = Ok (block reach_list b i)).
Proof.
  intros Hsize Hks reach_list n b r. exists (plan reach_list n).
  assert (n ≠ 0)%nat as Hn by lia.
  pose proof (Nat.div_mod_eq (length reach_list) n) as Hdm.
  pose proof (Nat.mod_upper_bound (length reach_list) n Hn) as Hr.
  fold b r in Hdm, Hr.
  split; [by apply get_reach_dict_plan|].
  rewrite plan_counts by done. fold b r.
  split; [rewrite count_extended; lia|].
  split. { apply Forall_fmap, Forall_forall. intros i _. simpl.
           destruct (i <? r)%nat; lia. }
  split; [done|]. split; [done|].
  split; [intros j; by apply rank_walk_mod|].
  split.
  - intros j Hj. destruct (lookup_lt_is_Some_2 reach_list (n * b + j)) as [x Hx]; [lia|].
    exists x. split; [done|]. rewrite rank_walk_mod by done.
    rewrite Z.mod_small by lia. apply plan_get. exists j. split; [done|].
    split; [lia|]. fold b r. unfold extra.
    rewrite (proj2 (Nat.ltb_lt j r)) by done. by rewrite (take_one_lookup _ _ x).
  - intros i Hi. apply plan_get. exists i. split; [done|]. split; [lia|].
    fold b r. unfold extra. rewrite (proj2 (Nat.ltb_ge i r)) by lia.
    by rewrite app_nil_r.
Qed.

(** The theorem applies: five keys over three ranks (scenario B). *)
Lemma get_reach_dict_round_robin_witness :
  ∃ d, get_reach_dict remove_dups 3 ["1_2_a"; "1_3_b"; "3_4_a"; "5_6_"; "7_8"] = Ok d ∧
    length (filter (λ c, c = 1 + 1)%nat (counts d)) = 2%nat ∧
    Forall (λ c, c = 1 + 1 ∨ c = 1)%nat (counts d) ∧
    rank_walk 3 0 = 0 ∧
    (∀ j, rank_walk 3 (S j) = next_rank 3 (rank_walk 3 j)) ∧
    (∀ j, rank_walk 3 j = Z.of_nat j `mod` 3) ∧
    (∀ j, (j < 2)%nat →
       ∃ reach, ["1_2"; "1_3"; "3_4"; "5_6"; "7_8"] !! (3 * 1 + j)%nat = Some reach ∧
         dict_get d (rank_walk 3 j)
         = Ok (block ["1_2"; "1_3"; "3_4"; "5_6"; "7_8"] 1 j ++ [reach])) ∧
    (∀ i, (2 ≤ i < 3)%nat →
       dict_get d (Z.of_nat i) = Ok (block ["1_2"; "1_3"; "3_4"; "5_6"; "7_8"] 1 i)).
Proof.
  assert (1 ≤ 3) as Hsize by lia.
  exact (get_reach_dict_round_robin remove_dups 3
           ["1_2_a"; "1_3_b"; "3_4_a"; "5_6_"; "7_8"]
           ["1_2"; "1_3"; "3_4"; "5_6"; "7_8"] Hsize eq_refl).
Defined.

(** C10. For every worker count [N >= 1], the keys of the dictionary
    [get_reach_dict] returns are exactly 0, ..., N-1, in this order; so the
    lookup [reach_dict[rank]] finds a list for every rank of the
    communicator and raises [KeyError] for every other number, and the
    sessions of all the ranks are built from the broadcast dictionary
    without an exception. *)
Theorem get_reach_dict_keys set_order classify (size : Z) (entries : list string) d :
  1 ≤ size → get_reach_dict set_order size entries = Ok d →
  dict_keys d = range size ∧
  (∀ rank, 0 ≤ rank < size → ∃ reach_list, dict_get d rank = Ok reach_list) ∧
  (∀ rank, ¬ (0 ≤ rank < size) → dict_get d rank = Raise KeyError) ∧
  ∃ results, comprehension (rank_session classify d) (range size) = Ok results
             ∧ length results = Z.to_nat size.
Proof.
  intros Hsize (ks & Hks & ->)%get_reach_dict_inv; [|done].
  set (keys := set_order ks). set (n := Z.to_nat size).
  assert (size = Z.of_nat n) as Hn by lia.
  split; [by rewrite plan_keys, Hn|].
  assert (∀ rank, 0 ≤ rank < size → ∃ reach_list,
            dict_get (plan keys n) rank = Ok reach_list) as Hget.
  { intros rank Hrank. eexists. apply plan_get. exists (Z.to_nat rank).
    split; [lia|]. split; [lia | done]. }
  split; [done|]. split.
  - intros rank Hrank. unfold plan. apply dict_get_tabulate_out. simpl. lia.
  - destruct (comprehension_total (rank_session classify (plan keys n)) (range size))
      as [results Hres].
    + apply Forall_forall. intros rank (i & -> & [_ Hi]%elem_of_seq)%list_elem_of_fmap.
      destruct (Hget (Z.of_nat i)) as [v Hv]; [lia|].
      unfold rank_session. rewrite Hv. by eexists.
    + exists results. split; [done|].
      apply comprehension_Ok, Forall2_length in Hres. rewrite <-Hres.
      unfold range. by rewrite length_fmap, length_seq.
Qed.

(** The theorem applies: three names over two ranks. *)
Lemma get_reach_dict_keys_witness :
  dict_keys [(0, ["1_2"]); (1, ["3_4"])] = range 2 ∧
  (∀ rank, 0 ≤ rank < 2 →
     ∃ reach_list, dict_get [(0, ["1_2"]); (1, ["3_4"])] rank = Ok reach_list) ∧
  (∀ rank, ¬ (0 ≤ rank < 2) →
     dict_get [(0, ["1_2"]); (1, ["3_4"])] rank = Raise KeyError) ∧
  ∃ results,
    comprehension (rank_session (λ _, true) [(0, ["1_2"]); (1, ["3_4"])]) (range 2)
    = Ok results ∧ length results = Z.to_nat 2.
Proof.
  assert (1 ≤ 2) as Hsize by lia.
  exact (get_reach_dict_keys remove_dups (λ _, true) 2 ["1_2_a"; "1_2_b"; "3_4_a"]
           [(0, ["1_2"]); (1, ["3_4"])] Hsize eq_refl).
Defined.

(** ** The iteration order of the set *)

Lemma get_reach_dict_same_order enum1 enum2 (size : Z) (entries : list string) :
  (∀ ks, comprehension reach_key entries = Ok ks → enum1 ks = enum2 ks) →
  get_reach_dict enum1 size entries = get_reach_dict enum2 size entries.
Proof.
  intros Hsame. unfold get_reach_dict.
  destruct (comprehension reach_key entries) as [ks|e]; [|done].
  simpl. by rewrite (Hsame ks).
Qed.

Lemma reverse_remove_dups_enumeration :
  set_enumeration (λ l, reverse (remove_dups l)).
Proof.
  intros l. split.
  - rewrite reverse_Permutation. apply NoDup_remove_dups.
  - intros x. by rewrite elem_of_reverse, elem_of_remove_dups.
Qed.

(** C3, as the claim states it, fails: two hosts that iterate the set of
    two keys in opposite orders get different plans from the same names and
    the same worker count. *)
Lemma get_reach_dict_order_counterexample :
  set_enumeration remove_dups ∧
  set_enumeration (λ l, reverse (remove_dups l)) ∧
  get_reach_dict remove_dups 2 ["1_2_a"; "3_4_a"] = Ok [(0, ["1_2"]); (1, ["3_4"])] ∧
  get_reach_dict (λ l, reverse (remove_dups l)) 2 ["1_2_a"; "3_4_a"]
  = Ok [(0, ["3_4"]); (1, ["1_2"])] ∧
  get_reach_dict remove_dups 2 ["1_2_a"; "3_4_a"]
  ≠ get_reach_dict (λ l, reverse (remove_dups l)) 2 ["1_2_a"; "3_4_a"].
Proof.
  split; [apply remove_dups_enumeration|].
  split; [apply reverse_remove_dups_enumeration|].
  split; [done|]. split; [done|]. discriminate.
Qed.

(** C3, amended. [get_reach_dict] is a function of the worker count, the
    names and the order in which the set of keys is iterated: the same
    order gives the same result. Under two different orders, and a worker
    count of at least 1, both runs raise the same exception or both return
    a plan, and the two plans have the same ranks, the same number of keys
    at every rank and the same keys overall; which keys a rank holds
    depends on the order. *)
Theorem get_reach_dict_order enum1 enum2 (size : Z) (entries : list string) :
  set_enumeration enum1 → set_enumeration enum2 → 1 ≤ size →
  ((∀ ks, comprehension reach_key entries = Ok ks → enum1 ks = enum2 ks) →
   get_reach_dict enum1 size entries = get_reach_dict enum2 size entries) ∧
  match get_reach_dict enum1 size entries, get_reach_dict enum2 size entries with
  | Ok d1, Ok d2 =>
      dict_keys d1 = dict_keys d2 ∧ counts d1 = counts d2 ∧
      concat (dict_values d1) ≡ₚ concat (dict_values d2)
  | Raise e1, Raise e2 => e1 = e2
  | _, _ => False
  end.
Proof.
  intros Henum1 Henum2 Hsize. split; [apply get_reach_dict_same_order|].
  destruct (comprehension reach_key entries) as [ks|e] eqn:Hks.
  - rewrite !(get_reach_dict_plan _ _ _ ks) by done.
    assert (Z.to_nat size ≠ 0)%nat as Hn by lia.
    assert (enum1 ks ≡ₚ enum2 ks) as Hperm.
    { destruct (Henum1 ks) as [Hnd1 Hin1], (Henum2 ks) as [Hnd2 Hin2].
      apply NoDup_Permutation; [done..|]. intros k. by rewrite Hin1, Hin2. }
    rewrite !plan_keys, !plan_counts, !plan_concat by done.
    by rewrite (Permutation_length Hperm).
  - unfold get_reach_dict. by rewrite Hks.
Qed.

(** The amended theorem applies to the two hosts of the counterexample. *)
Lemma get_reach_dict_order_witness :
  ((∀ ks, comprehension reach_key ["1_2_a"; "3_4_a"] = Ok ks →
          remove_dups ks = reverse (remove_dups ks)) →
   get_reach_dict remove_dups 2 ["1_2_a"; "3_4_a"]
   = get_reach_dict (λ l, reverse (remove_dups l)) 2 ["1_2_a"; "3_4_a"]) ∧
  dict_keys [(0, ["1_2"]); (1, ["3_4"])] = dict_keys [(0, ["3_4"]); (1, ["1_2"])] ∧
  counts [(0, ["1_2"]); (1, ["3_4"])] = counts [(0, ["3_4"]); (1, ["1_2"])] ∧
  concat (dict_values [(0, ["1_2"]); (1, ["3_4"])])
  ≡ₚ concat (dict_values [(0, ["3_4"]); (1, ["1_2"])]).
Proof.
  assert (1 ≤ 2) as Hsize by lia.
  exact (get_reach_dict_order remove_dups (λ l, reverse (remove_dups l)) 2
           ["1_2_a"; "3_4_a"] remove_dups_enumeration
           reverse_remove_dups_enumeration Hsize).
Defined.

(** ** Keys *)

Lemma split_cons_inv sep s t toks :
  split sep s = t :: toks →
  contains sep t = false ∧
  ((toks = [] ∧ s = t) ∨ (∃ s', s = t +:+ String sep s' ∧ split sep s' = toks)).
Proof.
  revert t toks. induction s as [|c s IH]; intros t toks; simpl.
  - intros [= <- <-]. auto.
  - destruct (Ascii.eqb_spec c sep) as [->|Hne].
    + intros [= <- <-]. split; [done|]. right. by exists s.
    + pose proof (split_not_nil sep s) as Hnil.
      destruct (split sep s) as [|t' toks'] eqn:Hs; [done|].
      intros [= <- <-]. destruct (IH t' toks' eq_refl) as [Ht' Hcase]. split.
      * simpl. by rewrite Ht', (proj2 (Ascii.eqb_neq c sep)).
      * destruct Hcase as [[-> ->]|(s' & -> & Hs')]; [by left|].
        right. by exists s'.
Qed.

Lemma reach_key_Ok name k :
  reach_key name = Ok k →
  ∃ t0 t1 toks, split "_" name = t0 :: t1 :: toks ∧ k = t0 +:+ "_" +:+ t1.
Proof.
  intros Hk. destruct (contains "_" name) eqn:Hs.
  - apply split_length in Hs.
    destruct (split "_" name) as [|t0 [|t1 toks]] eqn:E; simpl in Hs; [lia..|].
    exists t0, t1, toks. split; [done|].
    rewrite (reach_key_split _ _ _ _ E) in Hk. congruence.
  - by rewrite (reach_key_no_sep _ Hs) in Hk.
Qed.





(** C9. A name without `_` splits into one token, so taking the second
    token raises [IndexError]; [get_reach_dict] raises it as soon as one of
    the entries is such a name, whatever the worker count. For a worker
    count of at least 1 this is the only way to the exception: when every
    name has a `_`, a plan is returned. *)
Theorem reach_key_partial set_order (size : Z) (entries : list string) name :
  contains "_" name = false →
  split "_" name = [name] ∧
  py_index (split "_" name) 1 = Raise IndexError ∧
  reach_key name = Raise IndexError ∧
  (name ∈ entries → get_reach_dict set_order size entries = Raise IndexError) ∧
  (1 ≤ size →
   (get_reach_dict set_order size entries = Raise IndexError
    ↔ ∃ name', name' ∈ entries ∧ contains "_" name' = false) ∧
   ((∀ name', name' ∈ entries → contains "_" name' = true)
    ↔ ∃ d, get_reach_dict set_order size entries = Ok d)).
Proof.
  intros Hname. pose proof (split_no_sep _ _ Hname) as Hsplit.
  assert (∀ name', name' ∈ entries → contains "_" name' = false →
            get_reach_dict set_order size entries = Raise IndexError) as Hraise.
  { intros name' Hin Hno. unfold get_reach_dict.
    rewrite (comprehension_Raise reach_key entries name' IndexError); [done..| |].
    - by apply reach_key_no_sep.
    - intros ???. by eapply reach_key_exn. }
  assert (1 ≤ size →
          (∀ name', name' ∈ entries → contains "_" name' = true)
          ↔ ∃ d, get_reach_dict set_order size entries = Ok d) as Hok.
  { intros Hsize. split.
    - intros Hwf. destruct (entries_well_formed entries) as [ks Hks].
      { by apply Forall_forall. }
      eauto using get_reach_dict_plan.
    - intros [d Hd] name' Hin. destruct (contains "_" name') eqn:Hc; [done|].
      by rewrite (Hraise name' Hin Hc) in Hd. }
  split; [done|]. split; [by rewrite Hsplit; apply py_index_out|].
  split; [by apply reach_key_no_sep|]. split; [eauto|].
  intros Hsize. split; [|by apply Hok]. split.
  - intros Hexn. destruct (decide (Exists (λ n, contains "_" n = false) entries))
      as [(name' & ? & ?)%Exists_exists|Hall]; [eauto|].
    apply (not_Exists_Forall _) in Hall.
    destruct (proj1 (Hok Hsize)) as [d Hd]; [|congruence].
    intros name' Hin. apply (proj1 (Forall_forall _ _) Hall) in Hin.
    simpl in Hin. by destruct (contains "_" name').
  - intros (name' & ? & ?). eauto.
Qed.

(** The theorem applies: a name without `_` among well-formed ones. *)
Lemma reach_key_partial_witness :
  split "_" "README" = ["README"] ∧
  py_index (split "_" "README") 1 = Raise IndexError ∧
  reach_key "README" = Raise IndexError ∧
  ("README" ∈ ["1_2_a"; "README"] →
   get_reach_dict remove_dups 2 ["1_2_a"; "README"] = Raise IndexError) ∧
  (1 ≤ 2 →
   (get_reach_dict remove_dups 2 ["1_2_a"; "README"] = Raise IndexError
    ↔ ∃ name', name' ∈ ["1_2_a"; "README"] ∧ contains "_" name' = false) ∧
   ((∀ name', name' ∈ ["1_2_a"; "README"] → contains "_" name' = true)
    ↔ ∃ d, get_reach_dict remove_dups 2 ["1_2_a"; "README"] = Ok d)).
Proof.
  exact (reach_key_partial remove_dups 2 ["1_2_a"; "README"] "README" eq_refl).
Defined.

(** ** The main log *)

Lemma aggregate_from (results : list AppendSOS) (tv ti : list string) :
  fold_left
    (λ '(total_valid_list, total_invalid_list) append_sos,
       (total_valid_list ++ valid_list append_sos,
        total_invalid_list ++ invalid_list append_sos))
    results (tv, ti)
  = (tv ++ concat (valid_list <$> results), ti ++ concat (invalid_list <$> results)).
Proof.
  revert tv ti. induction results as [|a results IH]; intros tv ti; simpl.
  - by rewrite !app_nil_r.
  - by rewrite IH, <-!(assoc_L (++)).
Qed.

Lemma aggregate_concat (results : list AppendSOS) :
  aggregate results
  = (concat (valid_list <$> results), concat (invalid_list <$> results)).
Proof. unfold aggregate. by rewrite aggregate_from. Qed.

Lemma concat_slice {A : Type} (ls : list (list A)) (i : nat) (l : list A) :
  ls !! i = Some l →
  take (length l) (drop (length (concat (take i ls))) (concat ls)) = l.
Proof.
  intros Hi. rewrite <-(take_drop_middle ls i l Hi) at 2.
  rewrite concat_app, drop_app_length. simpl. by rewrite take_app_length.
Qed.

(** C7. [log_results] extends the total valid list, and the total invalid
    list, by each result in turn: the two totals are the valid lists, and
    the invalid lists, of the results joined in the order of [results]
    (rank order, as gathered), each list as the rank left it; the part of a
    total that comes from rank [i] is the list of rank [i]. The two counts
    logged are the lengths of the two totals, and the two listings are the
    totals joined by a comma. *)
Theorem log_results_concat (results : list AppendSOS) :
  let total_valid_list := concat (valid_list <$> results) in
  let total_invalid_list := concat (invalid_list <$> results) in
  aggregate results = (total_valid_list, total_invalid_list) ∧
  (∀ (i : nat) append_sos, results !! i = Some append_sos →
     take (length (valid_list append_sos))
          (drop (length (concat (valid_list <$> take i results))) total_valid_list)
     = valid_list append_sos ∧
     take (length (invalid_list append_sos))
          (drop (length (concat (invalid_list <$> take i results))) total_invalid_list)
     = invalid_list append_sos) ∧
  log_results results
  = [ "total valid: " +:+ pretty (Z.of_nat (length total_valid_list));
      "total invalid: " +:+ pretty (Z.of_nat (length total_invalid_list));
      EmptyString;
      "valid reaches:";
      String.concat ", " total_valid_list;
      EmptyString;
      "invalid reaches:";
      String.concat ", " total_invalid_list;
      EmptyString ].
Proof.
  intros tv ti. split; [apply aggregate_concat|]. split.
  - intros i a Hi. rewrite !fmap_take. split; apply concat_slice.
    all: by rewrite list_lookup_fmap, Hi.
  - unfold log_results. by rewrite aggregate_concat.
Qed.

Lemma count_elements_from (value : list string) (c : Z) :
  fold_left (λ reach_count _, reach_count + 1) value c = c + len value.
Proof.
  revert c. unfold len. induction value as [|x value IH]; intros c; simpl; [lia|].
  rewrite IH. lia.
Qed.

Lemma count_elements_len (value : list string) : count_elements value = len value.
Proof. unfold count_elements. by rewrite count_elements_from. Qed.

Lemma log_reaches_from (reach_dict : dict) (total : Z) (lines : list string) :
  fold_left log_reaches_step reach_dict (total, lines)
  = (total + Z.of_nat (sum_list (counts reach_dict)),
     lines ++ ((λ '(key, value),
                  pretty key +:+ "   Reach count:    " +:+ pretty (len value))
               <$> reach_dict)).
Proof.
  revert total lines. induction reach_dict as [|[key value] d IH]; intros total lines.
  - simpl. by rewrite Z.add_0_r, app_nil_r.
  - cbn [fold_left log_reaches_step]. rewrite IH, count_elements_len.
    unfold counts, dict_values, len. rewrite !fmap_cons, <-(assoc_L (++)). simpl.
    f_equal. lia.
Qed.

(** C8. For every dictionary, [log_reaches] logs one line per entry, in
    the order of the entries: the rank, "   Reach count:    " and the
    length of the list of the rank; then one last line, "Total reach
    count: " and the sum of these lengths. *)
Theorem log_reaches_lines (reach_dict : dict) :
  log_reaches reach_dict
  = ((λ '(rank, reach_list),
        pretty rank +:+ "   Reach count:    " +:+ pretty (Z.of_nat (length reach_list)))
     <$> reach_dict)
    ++ ["Total reach count: " +:+ pretty (Z.of_nat (sum_list (counts reach_dict)))].
Proof. unfold log_reaches. by rewrite log_reaches_from. Qed.

(** ** Fewer keys than ranks *)

Lemma comprehension_fmap {A B : Type} (f : A → result B) (g : A → B) (l : list A) :
  (∀ x, x ∈ l → f x = Ok (g x)) → comprehension f l = Ok (g <$> l).
Proof.
  induction l as [|x l IH]; intros Hfg; simpl; [done|].
  rewrite Hfg by left. simpl. rewrite IH; [done|]. intros y Hy. apply Hfg. by right.
Qed.

Lemma concat_fmap_nil {A B : Type} (f : A → list B) (l : list A) :
  (∀ x, x ∈ l → f x = []) → concat (f <$> l) = [].
Proof.
  induction l as [|x l IH]; intros Hf; simpl; [done|].
  rewrite Hf by left. simpl. apply IH. intros y Hy. apply Hf. by right.
Qed.

Lemma ranks_range (size : Z) : 1 ≤ size → ranks size = range size.
Proof.
  intros Hsize. unfold ranks, range.
  destruct (Z.to_nat size) as [|m] eqn:Hm; [lia|]. simpl. by rewrite Nat.sub_0_r.
Qed.

Lemma plan_nil_get (n : nat) (rank : Z) :
  0 ≤ rank < Z.of_nat n → dict_get (plan [] n) rank = Ok [].
Proof.
  intros Hrank. apply plan_get. exists (Z.to_nat rank). split; [lia|]. split; [lia|].
  unfold block, extra. rewrite !drop_nil, !take_nil. by destruct (_ <? _)%nat.
Qed.

(** C6. When there are fewer keys than ranks (so at least one rank),
    [get_reach_dict] returns a plan; every rank from the number of keys on,
    the last rank among them, holds the empty list. With no key at all
    every rank holds the empty list, the run goes through, and the totals
    [log_results] builds from the sessions of the ranks are empty: it logs
    0 valid and 0 invalid reaches. *)
Theorem get_reach_dict_fewer_keys set_order classify (size : Z)
    (entries ks : list string) :
  comprehension reach_key entries = Ok ks →
  len (set_order ks) < size →
  ∃ d, get_reach_dict set_order size entries = Ok d ∧
    (∀ rank, len (set_order ks) ≤ rank < size → dict_get d rank = Ok []) ∧
    dict_get d (size - 1) = Ok [] ∧
    (set_order ks = [] →
     (∀ rank, 0 ≤ rank < size → dict_get d rank = Ok []) ∧
     ∃ results,
       run set_order classify size entries
       = ((MainLog <$> log_reaches d) ++ [Bcast d; Barrier; Gather results]
          ++ (MainLog <$> log_results results), Ok ()) ∧
       length results = Z.to_nat size ∧
       aggregate results = ([], []) ∧
       log_results results
       = [ "total valid: 0"; "total invalid: 0"; EmptyString; "valid reaches:";
           EmptyString; EmptyString; "invalid reaches:"; EmptyString;
           EmptyString ]).
Proof.
  intros Hks Hfew. unfold len in Hfew.
  set (keys := set_order ks) in *. set (n := Z.to_nat size).
  assert (1 ≤ size) as Hsize by lia.
  pose proof (get_reach_dict_plan set_order size entries ks Hsize Hks) as Hd.
  fold keys n in Hd. exists (plan keys n). split; [done|].
  assert (∀ rank, Z.of_nat (length keys) ≤ rank < size →
            dict_get (plan keys n) rank = Ok []) as Hempty.
  { intros rank Hrank. apply plan_get. exists (Z.to_nat rank).
    split; [lia|]. split; [lia|].
    rewrite Nat.div_small, Nat.mod_small by lia. unfold block, extra.
    rewrite take_0, (proj2 (Nat.ltb_ge _ _)); [done | lia]. }
  split; [done|]. split; [apply Hempty; lia|].
  intros Hnil. rewrite Hnil in *.
  assert (∀ rank, 0 ≤ rank < size → dict_get (plan [] n) rank = Ok []) as Hall.
  { intros rank Hrank. apply plan_nil_get. lia. }
  split; [done|].
  exists ((λ _, append classify []) <$> range size).
  assert (aggregate ((λ _ : Z, append classify []) <$> range size) = ([], [])) as Hagg.
  { rewrite aggregate_concat, <-!list_fmap_compose. by rewrite !concat_fmap_nil. }
  split; [|split; [|split; [done|]]].
  - unfold run. rewrite Hd, ranks_range by done.
    rewrite (comprehension_fmap _ (λ _, append classify [])); [done|].
    intros rank (i & -> & [_ Hi]%elem_of_seq)%list_elem_of_fmap.
    unfold rank_session. rewrite Hall by lia. done.
  - unfold range. by rewrite !length_fmap, length_seq.
  - unfold log_results. by rewrite Hagg.
Qed.

(** The theorem applies: an empty directory and four ranks (scenario C). *)
Lemma get_reach_dict_fewer_keys_witness :
  ∃ d, get_reach_dict remove_dups 4 [] = Ok d ∧
    (∀ rank, len (remove_dups ([] : list string)) ≤ rank < 4 →
             dict_get d rank = Ok []) ∧
    dict_get d (4 - 1) = Ok [] ∧
    (remove_dups ([] : list string) = [] →
     (∀ rank, 0 ≤ rank < 4 → dict_get d rank = Ok []) ∧
     ∃ results,
       run remove_dups (λ _, true) 4 []
       = ((MainLog <$> log_reaches d) ++ [Bcast d; Barrier; Gather results]
          ++ (MainLog <$> log_results results), Ok ()) ∧
       length results = Z.to_nat 4 ∧
       aggregate results = ([], []) ∧
       log_results results
       = [ "total valid: 0"; "total invalid: 0"; EmptyString; "valid reaches:";
           EmptyString; EmptyString; "invalid reaches:"; EmptyString;
           EmptyString ]).
Proof.
  assert (len (remove_dups ([] : list string)) < 4) as Hfew by (unfold len; simpl; lia).
  exact (get_reach_dict_fewer_keys remove_dups (λ _, true) 4 [] [] eq_refl Hfew).
Defined.

(** * Further properties of the plan *)

Lemma sum_list_lengths {A : Type} (ls : list (list A)) :
  sum_list (length <$> ls) = length (concat ls).
Proof.
  induction ls as [|l ls IH]; csimpl; [done|]. by rewrite length_app, IH.
Qed.

Lemma plan_total (keys : list string) (n : nat) :
  n ≠ 0%nat → sum_list (counts (plan keys n)) = length keys.
Proof.
  intros Hn. unfold counts. rewrite sum_list_lengths.
  by rewrite (Permutation_length (plan_concat keys n Hn)).
Qed.

Lemma plan_divides (keys : list string) (n : nat) :
  n ≠ 0%nat → (length keys `mod` n = 0)%nat →
  plan keys n = tabulate (block keys (length keys / n)) 0 n.
Proof.
  intros Hn Hr. unfold plan. rewrite Hr. apply tabulate_ext.
  intros i _. unfold extra. simpl. by rewrite app_nil_r.
Qed.

(** X1. With one rank, the plan gives rank 0 every key, in the order in
    which the set is iterated. *)
Theorem get_reach_dict_single_rank set_order (entries ks : list string) :
  comprehension reach_key entries = Ok ks →
  get_reach_dict set_order 1 entries = Ok [(0, set_order ks)].
Proof.
  intros Hks. rewrite (get_reach_dict_plan _ _ _ ks) by done.
  change (Z.to_nat 1) with 1%nat. rewrite plan_divides by (done || apply Nat.mod_1_r).
  rewrite Nat.div_1_r. unfold tabulate, block. simpl.
  by rewrite drop_0, take_ge.
Qed.

(** The theorem applies: three names of two reaches, one rank. *)
Lemma get_reach_dict_single_rank_witness :
  get_reach_dict remove_dups 1 ["1_2_a"; "3_4_a"; "1_2_b"] = Ok [(0, ["3_4"; "1_2"])].
Proof.
  exact (get_reach_dict_single_rank remove_dups ["1_2_a"; "3_4_a"; "1_2_b"]
           ["1_2"; "3_4"; "1_2"] eq_refl).
Defined.

(** X2. When the worker count divides the number of keys, the second loop
    adds nothing: every rank holds exactly [T div N] keys, and the lists of
    the ranks, joined in rank order, are the iterated set itself, in its
    order. *)
Theorem get_reach_dict_even_split set_order (size : Z) (entries ks : list string) :
  1 ≤ size → comprehension reach_key entries = Ok ks →
  len (set_order ks) `mod` size = 0 →
  ∃ d, get_reach_dict set_order size entries = Ok d ∧
    concat (dict_values d) = set_order ks ∧
    ∀ rank reach_list, dict_get d rank = Ok reach_list →
      len reach_list = len (set_order ks) `div` size.
Proof.
  intros Hsize Hks Hmod. set (keys := set_order ks) in *. set (n := Z.to_nat size).
  assert (n ≠ 0)%nat as Hn by lia.
  assert (length keys `mod` n = 0)%nat as Hr.
  { apply Nat2Z.inj. rewrite Nat2Z.inj_mod. unfold n, len in *.
    by rewrite Z2Nat.id by lia. }
  exists (plan keys n). split; [by apply get_reach_dict_plan|]. split.
  - rewrite plan_divides, dict_values_tabulate, concat_blocks by done.
    pose proof (Nat.div_mod_eq (length keys) n). rewrite take_ge; [done | lia].
  - intros rank v (i & -> & Hi & ->)%plan_get. unfold len.
    rewrite plan_count, Hr by done. simpl.
    rewrite Nat.add_0_r, Nat2Z.inj_div. unfold n. by rewrite Z2Nat.id by lia.
Qed.

(** The theorem applies: four keys over two ranks. *)
Lemma get_reach_dict_even_split_witness :
  ∃ d, get_reach_dict remove_dups 2 ["1_2_a"; "3_4_a"; "5_6_a"; "7_8_a"] = Ok d ∧
    concat (dict_values d) = remove_dups ["1_2"; "3_4"; "5_6"; "7_8"] ∧
    ∀ rank reach_list, dict_get d rank = Ok reach_list →
      len reach_list = len (remove_dups ["1_2"; "3_4"; "5_6"; "7_8"]) `div` 2.
Proof.
  assert (1 ≤ 2) as Hsize by lia.
  exact (get_reach_dict_even_split remove_dups 2 ["1_2_a"; "3_4_a"; "5_6_a"; "7_8_a"]
           ["1_2"; "3_4"; "5_6"; "7_8"] Hsize eq_refl eq_refl).
Defined.

(** X3. A rank is idle, its list empty, exactly when its number is at
    least the number of keys; with at least as many keys as ranks no rank
    is idle. *)
Theorem get_reach_dict_idle_ranks set_order (size : Z) (entries ks : list string) :
  1 ≤ size → comprehension reach_key entries = Ok ks →
  ∃ d, get_reach_dict set_order size entries = Ok d ∧
    (∀ rank, 0 ≤ rank < size →
       dict_get d rank = Ok [] ↔ len (set_order ks) ≤ rank) ∧
    (size ≤ len (set_order ks) → ∀ rank, dict_get d rank ≠ Ok []).
Proof.
  intros Hsize Hks. set (keys := set_order ks) in *. set (n := Z.to_nat size).
  assert (n ≠ 0)%nat as Hn by lia.
  exists (plan keys n). split; [by apply get_reach_dict_plan|].
  assert (∀ i, (i < n)%nat →
            dict_get (plan keys n) (Z.of_nat i) = Ok [] ↔ (length keys ≤ i)%nat) as Hidle.
  { intros i Hi. pose proof (plan_count keys n i Hn Hi) as Hcount.
    pose proof (Nat.div_mod_eq (length keys) n) as Hdm.
    pose proof (Nat.mod_upper_bound (length keys) n Hn) as Hr.
    rewrite plan_get. split.
    - intros (i' & Heq%Nat2Z.inj & _ & Hnil). subst i'. rewrite <-Hnil in Hcount. simpl in Hcount.
      destruct (Nat.ltb_spec i (length keys `mod` n)); [lia|].
      assert (length keys / n = 0)%nat as Hb by lia. rewrite Hb in Hdm. lia.
    - intros Hle. exists i. split; [done|]. split; [done|].
      symmetry. apply length_zero_iff_nil. rewrite Hcount.
      rewrite Nat.div_small, Nat.mod_small by lia.
      rewrite (proj2 (Nat.ltb_ge i (length keys))) by done. done. }
  split.
  - intros rank Hrank. rewrite <-(Z2Nat.id rank) at 1 by lia.
    rewrite Hidle by lia. unfold len. lia.
  - intros Hmany rank Hget. pose proof Hget as (i & -> & Hi & _)%plan_get.
    apply Hidle in Hget; [|done]. unfold len in Hmany. lia.
Qed.

(** The theorem applies: two keys over three ranks. *)
Lemma get_reach_dict_idle_ranks_witness :
  ∃ d, get_reach_dict remove_dups 3 ["1_2_a"; "3_4_a"] = Ok d ∧
    (∀ rank, 0 ≤ rank < 3 →
       dict_get d rank = Ok [] ↔ len (remove_dups ["1_2"; "3_4"]) ≤ rank) ∧
    (3 ≤ len (remove_dups ["1_2"; "3_4"]) → ∀ rank, dict_get d rank ≠ Ok []).
Proof.
  assert (1 ≤ 3) as Hsize by lia.
  exact (get_reach_dict_idle_ranks remove_dups 3 ["1_2_a"; "3_4_a"] ["1_2"; "3_4"]
           Hsize eq_refl).
Defined.

(** X4. The key at position [p] of the iterated set goes to one rank and
    one place that depend on [p], the worker count and the number of keys
    only: among the first [N * (T div N)] keys, to rank [p div (T div N)]
    at place [p mod (T div N)]; among the left-over keys, to rank
    [p - N * (T div N)], behind the block of that rank. *)
Theorem get_reach_dict_rank_of set_order (size : Z) (entries ks : list string)
    (p : nat) (key : string) :
  1 ≤ size → comprehension reach_key entries = Ok ks →
  set_order ks !! p = Some key →
  let n := Z.to_nat size in
  let b := (length (set_order ks) / n)%nat in
  ∃ d reach_list, get_reach_dict set_order size entries = Ok d ∧
    dict_get d (Z.of_nat (rank_of n b p)) = Ok reach_list ∧
    reach_list !! place_of n b p = Some key.
Proof.
  intros Hsize Hks Hp n b. set (keys := set_order ks) in *.
  assert (n ≠ 0)%nat as Hn by lia.
  pose proof (lookup_lt_Some _ _ _ Hp) as HpT.
  pose proof (Nat.div_mod_eq (length keys) n) as Hdm.
  pose proof (Nat.mod_upper_bound (length keys) n Hn) as Hr. fold b in Hdm.
  assert (rank_of n b p < n)%nat as Hrank.
  { unfold rank_of. destruct (Nat.ltb_spec p (n * b)); [|lia].
    apply Nat.Div0.div_lt_upper_bound. lia. }
  exists (plan keys n),
    (block keys b (rank_of n b p)
     ++ extra keys n b (length keys `mod` n) (rank_of n b p)).
  split; [by apply get_reach_dict_plan|].
  split; [apply plan_get; by exists (rank_of n b p)|].
  unfold rank_of, place_of in *. destruct (Nat.ltb_spec p (n * b)) as [Hblock|Hrest].
  - assert (b ≠ 0)%nat as Hb by nia.
    pose proof (Nat.div_mod_eq p b) as Hpb.
    pose proof (Nat.mod_upper_bound p b Hb) as Hplace.
    apply lookup_app_l_Some. unfold block.
    rewrite lookup_take_lt, lookup_drop by done. rewrite <-Hp. f_equal. lia.
  - unfold extra. rewrite (proj2 (Nat.ltb_lt _ _)) by lia.
    replace (n * b + (p - n * b))%nat with p by lia.
    rewrite (take_one_lookup _ _ key) by done.
    apply list_lookup_middle. unfold block.
    rewrite length_take, length_drop. nia.
Qed.

(** The theorem applies: the last of five keys over three ranks. *)
Lemma get_reach_dict_rank_of_witness :
  ∃ d reach_list,
    get_reach_dict remove_dups 3 ["1_2_a"; "1_3_b"; "3_4_a"; "5_6_"; "7_8"] = Ok d ∧
    dict_get d (Z.of_nat (rank_of 3 1 4)) = Ok reach_list ∧
    reach_list !! place_of 3 1 4 = Some "7_8".
Proof.
  assert (1 ≤ 3) as Hsize by lia.
  exact (get_reach_dict_rank_of remove_dups 3
           ["1_2_a"; "1_3_b"; "3_4_a"; "5_6_"; "7_8"]
           ["1_2"; "1_3"; "3_4"; "5_6"; "7_8"] 4 "7_8" Hsize eq_refl eq_refl).
Defined.

(** X5. The list of every rank keeps the order in which the set is
    iterated: it is made of keys of the iterated set, taken from left to
    right. *)
Theorem get_reach_dict_keeps_order set_order (size : Z) (entries ks : list string)
    d rank reach_list :
  1 ≤ size → comprehension reach_key entries = Ok ks →
  get_reach_dict set_order size entries = Ok d →
  dict_get d rank = Ok reach_list →
  reach_list `sublist_of` set_order ks.
Proof.
  intros Hsize Hks Hd Hget. rewrite (get_reach_dict_plan _ _ _ ks) in Hd by done.
  injection Hd as <-. set (keys := set_order ks) in *. set (n := Z.to_nat size) in *.
  apply plan_get in Hget as (i & -> & Hi & ->).
  set (b := (length keys / n)%nat). set (r := (length keys `mod` n)%nat).
  trans (drop (i * b) keys); [|apply sublist_drop].
  trans (take b (drop (i * b) keys) ++ drop b (drop (i * b) keys));
    [|by rewrite take_drop].
  apply sublist_app; [done|].
  unfold extra. destruct (i <? r)%nat; [|apply sublist_nil_l].
  rewrite drop_drop.
  replace (n * b + i)%nat with (i * b + b + (n * b + i - (i * b + b)))%nat by nia.
  rewrite <-(drop_drop keys). etrans; [apply sublist_take | apply sublist_drop].
Qed.

(** The theorem applies: rank 0 of five keys over three ranks. *)
Lemma get_reach_dict_keeps_order_witness :
  ["1_2"; "5_6"] `sublist_of` remove_dups ["1_2"; "1_3"; "3_4"; "5_6"; "7_8"].
Proof.
  assert (1 ≤ 3) as Hsize by lia.
  exact (get_reach_dict_keeps_order remove_dups 3
           ["1_2_a"; "1_3_b"; "3_4_a"; "5_6_"; "7_8"]
           ["1_2"; "1_3"; "3_4"; "5_6"; "7_8"]
           [(0, ["1_2"; "5_6"]); (1, ["1_3"; "7_8"]); (2, ["3_4"])] 0 ["1_2"; "5_6"]
           Hsize eq_refl eq_refl eq_refl).
Defined.

(** X6. The plan [get_reach_dict] returns for [N >= 1] ranks is logged by
    [log_reaches] in [N + 1] lines: for the ranks 0, ..., N-1 in turn, the
    rank with [T div N + 1] keys if it is below [T mod N] and [T div N]
    keys otherwise, then the total, which is the number [T] of keys of the
    iterated set. *)
Theorem log_reaches_plan set_order (size : Z) (entries ks : list string) :
  1 ≤ size → comprehension reach_key entries = Ok ks →
  let T := length (set_order ks) in
  let n := Z.to_nat size in
  ∃ d, get_reach_dict set_order size entries = Ok d ∧
    log_reaches d
    = ((λ i, pretty (Z.of_nat i) +:+ "   Reach count:    "
             +:+ pretty (Z.of_nat (T / n + if (i <? T `mod` n)%nat then 1 else 0)))
       <$> seq 0 n)
      ++ ["Total reach count: " +:+ pretty (Z.of_nat T)].
Proof.
  intros Hsize Hks T n. assert (n ≠ 0)%nat as Hn by lia.
  exists (plan (set_order ks) n). split; [by apply get_reach_dict_plan|].
  unfold log_reaches. rewrite log_reaches_from, plan_total by done. simpl.
  f_equal. unfold plan, tabulate. rewrite <-list_fmap_compose.
  apply list_fmap_ext. intros j i [-> Hj]%lookup_seq. simpl. unfold len.
  by rewrite plan_count.
Qed.

(** The theorem applies: five keys over three ranks. *)
Lemma log_reaches_plan_witness :
  ∃ d, get_reach_dict remove_dups 3 ["1_2_a"; "1_3_b"; "3_4_a"; "5_6_"; "7_8"] = Ok d ∧
    log_reaches d
    = [ "0   Reach count:    2"; "1   Reach count:    2"; "2   Reach count:    1";
        "Total reach count: 5" ].
Proof.
  assert (1 ≤ 3) as Hsize by lia.
  exact (log_reaches_plan remove_dups 3 ["1_2_a"; "1_3_b"; "3_4_a"; "5_6_"; "7_8"]
           ["1_2"; "1_3"; "3_4"; "5_6"; "7_8"] Hsize eq_refl).
Defined.

(** * Further properties of keys and of the totals *)

(** X7. A key is its own key: deriving the key of a derived key gives the
    same key again. *)
Theorem reach_key_idempotent (name k : string) :
  reach_key name = Ok k → reach_key k = Ok k.
Proof.
  intros (t0 & t1 & toks & Hsplit & ->)%reach_key_Ok.
  destruct (split_cons_inv _ _ _ _ Hsplit) as [Ht0 [[? _]|(s' & -> & Hs')]]; [done|].
  destruct (split_cons_inv _ _ _ _ Hs') as [Ht1 _].
  apply (reach_key_split _ t0 t1 []).
  change (t0 +:+ "_" +:+ t1) with (t0 +:+ String "_" t1).
  by rewrite split_sep, split_no_sep.
Qed.

(** The theorem applies: the key of a file name. *)
Lemma reach_key_idempotent_witness : reach_key "12_34" = Ok "12_34".
Proof. exact (reach_key_idempotent "12_34_x.csv" "12_34" eq_refl). Defined.

(** X8. The totals of [log_results] over two groups of results, one after
    the other, are the totals of the first group followed by the totals of
    the second. *)
Theorem aggregate_app (results1 results2 : list AppendSOS) :
  aggregate (results1 ++ results2)
  = ((aggregate results1).1 ++ (aggregate results2).1,
     (aggregate results1).2 ++ (aggregate results2).2).
Proof. rewrite !aggregate_concat, !fmap_app, !concat_app. done. Qed.

(** * Loggers *)

Lemma string_length_app (s t : string) :
  String.length (s +:+ t) = (String.length s + String.length t)%nat.
Proof. induction s as [|c s IH]; simpl; [done | by rewrite IH]. Qed.

Lemma append_inv_tail (s1 s2 t : string) : s1 +:+ t = s2 +:+ t → s1 = s2.
Proof.
  intros Heq. assert (String.length s1 = String.length s2) as Hlen.
  { apply (f_equal String.length) in Heq. rewrite !string_length_app in Heq. lia. }
  revert s2 Heq Hlen. induction s1 as [|c s1 IH]; intros [|c' s2]; simpl; try done.
  intros [= <- Heq] [= Hlen]. f_equal. by apply IH.
Qed.

Lemma pretty_N_char_digit (k : N) : pretty_N_char k ≠ "m"%char.
Proof.
  destruct k as [|p]; [done|].
  destruct p as [p|p|]; try done; destruct p as [p|p|]; try done;
    destruct p as [p|p|]; try done; destruct p as [p|p|]; done.
Qed.

Lemma pretty_N_go_head (x : N) (s : string) :
  (0 < x)%N → ∃ k rest, pretty_N_go x s = String (pretty_N_char k) rest.
Proof.
  revert s. induction (N.lt_wf_0 x) as [x _ IH]; intros s Hx.
  rewrite pretty_N_go_step by done.
  destruct (decide (x `div` 10 = 0)%N) as [->|Hne].
  - rewrite pretty_N_go_0. eauto.
  - apply IH.
    + apply N.div_lt; [done | reflexivity].
    + by apply N.neq_0_lt_0.
Qed.

Lemma pretty_Z_not_main (rank : Z) : pretty rank ≠ "main".
Proof.
  destruct rank as [|p|p]; [done| |done].
  change (pretty (Z.pos p)) with (pretty_N_go (N.pos p) EmptyString).
  destruct (pretty_N_go_head (N.pos p) EmptyString) as (k & rest & ->); [lia|].
  intros [= Hk _]. by apply (pretty_N_char_digit k).
Qed.

(** X10. The log file of a rank is determined by the rank alone: two
    ranks that log to the same file are the same rank, and no rank logs to
    the file of the main logger. *)
Theorem rank_log_filename_inj (logging_dir : string) (rank1 rank2 : Z) :
  (rank_log_filename logging_dir rank1 = rank_log_filename logging_dir rank2 →
   rank1 = rank2) ∧
  rank_log_filename logging_dir rank1 ≠ main_log_filename logging_dir.
Proof.
  unfold rank_log_filename, main_log_filename. split.
  - intros Heq%String.app_inj%(String.app_inj "/")%append_inv_tail.
    by apply (inj pretty).
  - intros Heq%String.app_inj. change "/main.log" with ("/" +:+ "main" +:+ ".log") in Heq.
    apply (String.app_inj "/"), append_inv_tail in Heq.
    by apply (pretty_Z_not_main rank1).
Qed.

Lemma configure_lookup (name name' : string) (hdlr : FileHandler)
    (loggers : gmap string Logger) :
  addHandler name hdlr (setLevel name DEBUG (getLogger name loggers)) !! name'
  = if decide (name = name')
    then Some (mkLogger DEBUG (handlers_of name loggers ++ [hdlr]))
    else loggers !! name'.
Proof.
  unfold addHandler, setLevel, getLogger, handlers_of. rewrite !lookup_alter.
  destruct (decide (name = name')) as [<-|Hne];
    rewrite ?decide_True, ?decide_False by done.
  - destruct (loggers !! name) as [logger|] eqn:Hl.
    + by rewrite Hl.
    + by rewrite lookup_insert_eq.
  - destruct (loggers !! name); [done|]. by rewrite lookup_insert_ne.
Qed.

Lemma create_rank_logger_lookup abspath can_open (logging_dir : string)
    (rank : Z) (loggers : gmap string Logger) (name : string) :
  can_open (abspath (rank_log_filename logging_dir rank)) = true →
  (create_rank_logger abspath can_open logging_dir rank loggers).1 !! name
  = if decide ("rank_logger" = name)
    then Some (mkLogger DEBUG
                 (handlers_of "rank_logger" loggers
                  ++ [mkFileHandler (abspath (rank_log_filename logging_dir rank))
                        INFO (Some "%(message)s")]))
    else loggers !! name.
Proof.
  intros Hopen. unfold create_rank_logger, FileHandler_new. rewrite Hopen.
  apply configure_lookup.
Qed.

Lemma create_main_logger_lookup abspath can_open (logging_dir : string)
    (loggers : gmap string Logger) (name : string) :
  can_open (abspath (main_log_filename logging_dir)) = true →
  (create_main_logger abspath can_open logging_dir loggers).1 !! name
  = if decide ("main_logger" = name)
    then Some (mkLogger DEBUG
                 (handlers_of "main_logger" loggers
                  ++ [mkFileHandler (abspath (main_log_filename logging_dir))
                        INFO (Some "%(message)s")]))
    else loggers !! name.
Proof.
  intros Hopen. unfold create_main_logger, FileHandler_new. rewrite Hopen.
  apply configure_lookup.
Qed.

(** X11. The two loggers a rank creates do not touch each other. When
    both log files can be opened, [create_rank_logger] and then
    [create_main_logger] return their loggers, and whatever was registered
    before, each of the two loggers is at level [DEBUG] and has, behind
    the handlers it had, one more handler: at level [INFO], with the
    format "%(message)s", for the absolute path of the file of the rank
    and of main.log. Every other logger is as it was, and the two calls
    in the other order leave the same registry. *)
Theorem create_loggers_independent abspath can_open (logging_dir : string)
    (rank : Z) (loggers : gmap string Logger) :
  can_open (abspath (rank_log_filename logging_dir rank)) = true →
  can_open (abspath (main_log_filename logging_dir)) = true →
  let after_rank := create_rank_logger abspath can_open logging_dir rank loggers in
  let after_main := create_main_logger abspath can_open logging_dir after_rank.1 in
  after_rank.2 = Returned "rank_logger" ∧
  after_main.2 = Returned "main_logger" ∧
  after_main.1 !! "rank_logger"
  = Some (mkLogger DEBUG
            (handlers_of "rank_logger" loggers
             ++ [mkFileHandler (abspath (rank_log_filename logging_dir rank)) INFO
                   (Some "%(message)s")])) ∧
  after_main.1 !! "main_logger"
  = Some (mkLogger DEBUG
            (handlers_of "main_logger" loggers
             ++ [mkFileHandler (abspath (main_log_filename logging_dir)) INFO
                   (Some "%(message)s")])) ∧
  (∀ name, name ≠ "rank_logger" → name ≠ "main_logger" →
           after_main.1 !! name = loggers !! name) ∧
  after_main.1
  = (create_rank_logger abspath can_open logging_dir rank
       (create_main_logger abspath can_open logging_dir loggers).1).1.
Proof.
  intros Hrank Hmain after_rank after_main. unfold after_main, after_rank.
  split; [|split; [|split; [|split; [|split]]]].
  - unfold create_rank_logger, FileHandler_new. by rewrite Hrank.
  - unfold create_main_logger, FileHandler_new. by rewrite Hmain.
  - by rewrite create_main_logger_lookup, create_rank_logger_lookup.
  - rewrite create_main_logger_lookup by done. simpl. do 3 f_equal.
    unfold handlers_of. by rewrite create_rank_logger_lookup.
  - intros name Hr Hm.
    rewrite create_main_logger_lookup, create_rank_logger_lookup by done.
    by rewrite !decide_False by done.
  - apply map_eq. intros name. unfold handlers_of.
    repeat first [ rewrite create_main_logger_lookup by done
                 | rewrite create_rank_logger_lookup by done
                 | progress unfold handlers_of
                 | case_decide; simplify_eq ].
    all: done.
Qed.

(** The theorem applies: rank 3 of a process in /work with the relative
    directory logs, nothing registered before. *)
Lemma create_loggers_independent_witness :
  let abspath := String.append "/work/" in
  let can_open := λ _ : string, true in
  let after_rank := create_rank_logger abspath can_open "logs" 3 ∅ in
  let after_main := create_main_logger abspath can_open "logs" after_rank.1 in
  after_rank.2 = Returned "rank_logger" ∧
  after_main.2 = Returned "main_logger" ∧
  after_main.1 !! "rank_logger"
  = Some (mkLogger DEBUG
            (handlers_of "rank_logger" ∅
             ++ [mkFileHandler (abspath (rank_log_filename "logs" 3)) INFO
                   (Some "%(message)s")])) ∧
  after_main.1 !! "main_logger"
  = Some (mkLogger DEBUG
            (handlers_of "main_logger" ∅
             ++ [mkFileHandler (abspath (main_log_filename "logs")) INFO
                   (Some "%(message)s")])) ∧
  (∀ name, name ≠ "rank_logger" → name ≠ "main_logger" →
           after_main.1 !! name = (∅ : gmap string Logger) !! name) ∧
  after_main.1
  = (create_rank_logger abspath can_open "logs" 3
       (create_main_logger abspath can_open "logs" ∅).1).1.
Proof.
  exact (create_loggers_independent (String.append "/work/") (λ _, true) "logs" 3 ∅
           eq_refl eq_refl).
Defined.

(** X12. Creating a logger again does not replace its handler: as long as
    the file can be opened, every call of [create_main_logger], and every
    call of [create_rank_logger] for the same rank, puts one more handler
    for the same absolute path behind the handlers the logger has, so [k]
    calls leave [k] more handlers. *)
Theorem create_logger_again abspath can_open (logging_dir : string) (rank : Z)
    (k : nat) (loggers : gmap string Logger) :
  can_open (abspath (rank_log_filename logging_dir rank)) = true →
  can_open (abspath (main_log_filename logging_dir)) = true →
  handlers_of "main_logger"
    (Nat.iter k (λ l, (create_main_logger abspath can_open logging_dir l).1) loggers)
  = handlers_of "main_logger" loggers
    ++ replicate k (mkFileHandler (abspath (main_log_filename logging_dir)) INFO
                      (Some "%(message)s")) ∧
  handlers_of "rank_logger"
    (Nat.iter k (λ l, (create_rank_logger abspath can_open logging_dir rank l).1)
       loggers)
  = handlers_of "rank_logger" loggers
    ++ replicate k (mkFileHandler (abspath (rank_log_filename logging_dir rank)) INFO
                      (Some "%(message)s")).
Proof.
  intros Hrank Hmain. split.
  - induction k as [|k IH]; [by rewrite app_nil_r|].
    rewrite Nat.iter_succ, replicate_S_end, (assoc_L (++)), <-IH.
    unfold handlers_of at 1. by rewrite create_main_logger_lookup.
  - induction k as [|k IH]; [by rewrite app_nil_r|].
    rewrite Nat.iter_succ, replicate_S_end, (assoc_L (++)), <-IH.
    unfold handlers_of at 1. by rewrite create_rank_logger_lookup.
Qed.

(** The theorem applies: two calls of each function in a process in /work,
    nothing registered before. *)
Lemma create_logger_again_witness :
  let abspath := String.append "/work/" in
  let can_open := λ _ : string, true in
  handlers_of "main_logger"
    (Nat.iter 2 (λ l, (create_main_logger abspath can_open "logs" l).1) ∅)
  = handlers_of "main_logger" ∅
    ++ replicate 2 (mkFileHandler (abspath (main_log_filename "logs")) INFO
                      (Some "%(message)s")) ∧
  handlers_of "rank_logger"
    (Nat.iter 2 (λ l, (create_rank_logger abspath can_open "logs" 3 l).1) ∅)
  = handlers_of "rank_logger" ∅
    ++ replicate 2 (mkFileHandler (abspath (rank_log_filename "logs" 3)) INFO
                      (Some "%(message)s")).
Proof.
  exact (create_logger_again (String.append "/work/") (λ _, true) "logs" 3 2 ∅
           eq_refl eq_refl).
Defined.

Lemma split_first_two (name t0 t1 : string) (toks : list string) :
  split "_" name = t0 :: t1 :: toks → split "_" (t0 +:+ "_" +:+ t1) = [t0; t1].
Proof.
  intros Hsplit.
  destruct (split_cons_inv _ _ _ _ Hsplit) as [Ht0 [[? _]|(s' & -> & Hs')]]; [done|].
  destruct (split_cons_inv _ _ _ _ Hs') as [Ht1 _].
  change (t0 +:+ "_" +:+ t1) with (t0 +:+ String "_" t1).
  by rewrite split_sep, split_no_sep.
Qed.

(** X13. Two names have the same key exactly when they agree on their
    first two `_`-delimited tokens: what follows the second `_` does not
    count, and different pairs of tokens never give the same key. *)
Theorem reach_key_same_key (name1 name2 k1 k2 : string) :
  reach_key name1 = Ok k1 → reach_key name2 = Ok k2 →
  k1 = k2 ↔ take 2 (split "_" name1) = take 2 (split "_" name2).
Proof.
  intros (t0 & t1 & toks1 & Hs1 & ->)%reach_key_Ok
         (u0 & u1 & toks2 & Hs2 & ->)%reach_key_Ok.
  rewrite Hs1, Hs2. simpl. rewrite !take_0. split.
  - intros Heq. pose proof (split_first_two _ _ _ _ Hs1) as H1.
    pose proof (split_first_two _ _ _ _ Hs2) as H2. rewrite Heq in H1. congruence.
  - by intros [= -> ->].
Qed.

(** The theorem applies: two files of one reach. *)
Lemma reach_key_same_key_witness :
  "12_34" = "12_34"
  ↔ take 2 (split "_" "12_34_x.csv") = take 2 (split "_" "12_34_y_z.csv").
Proof.
  exact (reach_key_same_key "12_34_x.csv" "12_34_y_z.csv" "12_34" "12_34"
           eq_refl eq_refl).
Defined.
